(** * Dynamic GIF Generator: the [/face.gif] request handler

    A shallow embedding of [serve_face_gif] (server_gif.py, lines 110-173),
    of the entry point (lines 175-179) and of the Python built-ins they
    call, followed by the properties of the handler (determinism, frame
    order, seed normalisation, capability gating, error mapping, frame
    duration, loop count, the order of the calls) and of the entry point
    (the port served). *)

From Stdlib Require Import List ZArith NArith Bool Lia.
From Stdlib Require Import Strings.String Strings.Ascii Strings.Byte.
Import ListNotations.

Set Implicit Arguments.
Local Open Scope N_scope.

(** ** Python [str] and [bytes] *)

(** A Python [str] is a sequence of Unicode code points (0 .. 0x10FFFF);
    a [bytes] object is a sequence of octets. *)
Definition codepoint := N.
Definition str := list codepoint.
Definition bytes := list byte.

(** An ASCII string literal of the source, as a [str]. *)
Definition lit (s : string) : str := map N_of_ascii (list_ascii_of_string s).
Arguments lit s%_string.

Fixpoint str_eqb (a b : str) : bool :=
  match a, b with
  | [], [] => true
  | x :: a', y :: b' => (x =? y) && str_eqb a' b'
  | _, _ => false
  end.

Definition comma : codepoint := 0x2c.

(** [str.isspace] on one code point (CPython's [_PyUnicode_IsWhitespace]). *)
Definition isspace (c : codepoint) : bool :=
  ((0x09 <=? c) && (c <=? 0x0d)) || ((0x1c <=? c) && (c <=? 0x20))
  || (c =? 0x85) || (c =? 0xa0) || (c =? 0x1680)
  || ((0x2000 <=? c) && (c <=? 0x200a))
  || (c =? 0x2028) || (c =? 0x2029) || (c =? 0x202f) || (c =? 0x205f)
  || (c =? 0x3000).

Fixpoint lstrip (s : str) : str :=
  match s with
  | [] => []
  | c :: r => if isspace c then lstrip r else s
  end.

Fixpoint rstrip (s : str) : str :=
  match s with
  | [] => []
  | c :: r =>
      match rstrip r with
      | [] => if isspace c then [] else [c]
      | r' => c :: r'
      end
  end.

(** [s.strip()]: leading and trailing whitespace removed. *)
Definition strip (s : str) : str := rstrip (lstrip s).

(** [s.split(sep)] for a one-character separator: never the empty list. *)
Fixpoint split (sep : codepoint) (s : str) : list str :=
  match s with
  | [] => [[]]
  | c :: r =>
      if c =? sep then [] :: split sep r
      else match split sep r with
           | [] => [[c]]
           | p :: ps => (c :: p) :: ps
           end
  end.

(** [sep.join(pieces)]. *)
Fixpoint join (sep : codepoint) (pieces : list str) : str :=
  match pieces with
  | [] => []
  | [p] => p
  | p :: ps => p ++ sep :: join sep ps
  end.

(** ** Exceptions *)

(** The exceptions the handler can meet: those of the built-ins it calls and
    those raised inside [generate_svg], cairosvg or Pillow (type [X]). *)
Inductive exn (X : Type) : Type :=
| ValueError_invalid_literal (literal : str)
| ValueError_exceeds_limit (digits : nat)
| UnicodeEncodeError (object : str) (start stop : nat)
| IndexError
| Foreign (x : X).

Arguments ValueError_invalid_literal {X} literal.
Arguments ValueError_exceeds_limit {X} digits.
Arguments UnicodeEncodeError {X} object start stop.
Arguments IndexError {X}.
Arguments Foreign {X} x.

(** ** [int(s)] for a [str] argument, base 10 *)

(** First code points of the runs of ten decimal digits (category Nd,
    Unicode 14.0.0); the digit of value [k] is at offset [k]. *)
Definition decimal_runs : list codepoint :=
  [ 0x30; 0x660; 0x6f0; 0x7c0; 0x966; 0x9e6; 0xa66; 0xae6; 0xb66; 0xbe6;
    0xc66; 0xce6; 0xd66; 0xde6; 0xe50; 0xed0; 0xf20; 0x1040; 0x1090; 0x17e0;
    0x1810; 0x1946; 0x19d0; 0x1a80; 0x1a90; 0x1b50; 0x1bb0; 0x1c40; 0x1c50;
    0xa620; 0xa8d0; 0xa900; 0xa9d0; 0xa9f0; 0xaa50; 0xabf0; 0xff10; 0x104a0;
    0x10d30; 0x11066; 0x110f0; 0x11136; 0x111d0; 0x112f0; 0x11450; 0x114d0;
    0x11650; 0x116c0; 0x11730; 0x118e0; 0x11950; 0x11c50; 0x11d50; 0x11da0;
    0x16a60; 0x16ac0; 0x16b50; 0x1d7ce; 0x1d7d8; 0x1d7e2; 0x1d7ec; 0x1d7f6;
    0x1e140; 0x1e2f0; 0x1e950; 0x1fbf0 ].

Fixpoint decimal_in (runs : list codepoint) (c : codepoint) : option N :=
  match runs with
  | [] => None
  | r :: rs => if (r <=? c) && (c <? r + 10) then Some (c - r)
               else decimal_in rs c
  end.

(** [Py_UNICODE_TODECIMAL]. *)
Definition decimal (c : codepoint) : option N := decimal_in decimal_runs c.

(** Whitespace that [int] skips around the number: C [isspace] on ASCII,
    every Unicode whitespace beyond ASCII (0x1c-0x1f are not skipped). *)
Definition int_space (c : codepoint) : bool :=
  if c <? 0x80 then ((0x09 <=? c) && (c <=? 0x0d)) || (c =? 0x20)
  else isspace c.

Definition underscore : codepoint := 0x5f.

(** The digits of the literal after the first one: single underscores are
    allowed between digits only. Returns the value so far, the number of
    digits and the unread rest; [None] on a misplaced underscore. *)
Fixpoint scan_digits (s : str) (acc : N) (count : nat)
  : option (N * nat * str) :=
  match s with
  | [] => Some (acc, count, [])
  | c :: r =>
      match decimal c with
      | Some d => scan_digits r (10 * acc + d) (S count)
      | None =>
          if c =? underscore then
            match r with
            | c' :: r' =>
                match decimal c' with
                | Some d => scan_digits r' (10 * acc + d) (S count)
                | None => None
                end
            | [] => None
            end
          else Some (acc, count, s)
      end
  end.

(** [sys.get_int_max_str_digits()], CPython's default. *)
Definition int_max_str_digits : nat := 4300.

Fixpoint lstrip_int (s : str) : str :=
  match s with
  | [] => []
  | c :: r => if int_space c then lstrip_int r else s
  end.

(** [int(s)]: optional whitespace, optional sign, digits, optional
    whitespace. The digit limit is checked once the digits are read, before
    what follows them is looked at. *)
Definition py_int {X} (s : str) : exn X + Z :=
  let body := lstrip_int s in
  let '(negative, body) :=
    match body with
    | 0x2b :: r => (false, r)
    | 0x2d :: r => (true, r)
    | _ => (false, body)
    end in
  match body with
  | [] => inl (ValueError_invalid_literal s)
  | c :: r =>
      match decimal c with
      | None => inl (ValueError_invalid_literal s)
      | Some d =>
          match scan_digits r d 1 with
          | None => inl (ValueError_invalid_literal s)
          | Some (v, count, rest) =>
              if Nat.ltb int_max_str_digits count then
                inl (ValueError_exceeds_limit count)
              else if negb (forallb int_space rest) then
                inl (ValueError_invalid_literal s)
              else inr (if negative then Z.opp (Z.of_N v) else Z.of_N v)
          end
      end
  end.

(** ** [s.encode('utf-8')] *)

Definition octet (n : N) : byte :=
  match Byte.of_N (n mod 256) with
  | Some b => b
  | None => x00
  end.

Definition is_surrogate (c : codepoint) : bool :=
  (0xd800 <=? c) && (c <=? 0xdfff).

Definition utf8_char (c : codepoint) : bytes :=
  if c <? 0x80 then [octet c]
  else if c <? 0x800 then
    [octet (0xc0 + c / 64); octet (0x80 + c mod 64)]
  else if c <? 0x10000 then
    [octet (0xe0 + c / 4096); octet (0x80 + (c / 64) mod 64);
     octet (0x80 + c mod 64)]
  else
    [octet (0xf0 + c / 262144); octet (0x80 + (c / 4096) mod 64);
     octet (0x80 + (c / 64) mod 64); octet (0x80 + c mod 64)].

Fixpoint surrogate_run (s : str) : nat :=
  match s with
  | c :: r => if is_surrogate c then S (surrogate_run r) else O
  | [] => O
  end.

(** Encoding from position [pos] of [whole]; a lone surrogate raises
    [UnicodeEncodeError] over the run of surrogates it starts. *)
Fixpoint utf8_from {X} (whole : str) (pos : nat) (s : str) : exn X + bytes :=
  match s with
  | [] => inr []
  | c :: r =>
      if is_surrogate c then
        inl (UnicodeEncodeError whole pos (pos + surrogate_run s))
      else
        match utf8_from whole (S pos) r with
        | inl e => inl e
        | inr bs => inr (utf8_char c ++ bs)
        end
  end.

Definition encode_utf8 {X} (s : str) : exn X + bytes := utf8_from s 0 s.

(** ** Requests and responses *)

(** [request.args]: the decoded query string, in order; a key may repeat and
    a value may be empty ([?seeds=] is the pair [("seeds", "")]). *)
Record request := { args : list (str * str) }.

(** [request.args.get(key)]: the first value of [key], if any. *)
Fixpoint args_get (key : str) (l : list (str * str)) : option str :=
  match l with
  | [] => None
  | (k, v) :: r => if str_eqb k key then Some v else args_get key r
  end.

Inductive content :=
| Text (s : str)
| Data (b : bytes).

(** [Response(body, status=..., mimetype=...)]; the status defaults to 200. *)
Record Response := { body : content; status : Z; mimetype : str }.

(** The module-level flags set by the two guarded imports (lines 12-22). *)
Record capabilities := { HAS_CAIRO : bool; HAS_PIL : bool }.

(** The keyword arguments of [Image.save] (lines 155-163). *)
Record save_kwargs (Image : Type) := {
  format : str;
  save_all : bool;
  append_images : list Image;
  duration : Z;
  loop : Z;
  optimize : bool
}.

(** ** The collaborators

    [generate_svg] is imported from a module outside this file; cairosvg and
    Pillow are libraries. [generate_svg] runs in the process state [World]
    (hash seed, random state, clock) and may read or change it; the two
    libraries convert their arguments. Each may raise. *)
Class Runtime := {
  World : Type;
  Raised : Type;
  Image : Type;
  generate_svg : str -> World -> (Raised + str) * World;
  svg2png : bytes -> Z -> Z -> Raised + bytes;
  Image_open : bytes -> Raised + Image;
  Image_save : Image -> save_kwargs Image -> Raised + bytes;
  (** [isinstance(e, Exception)] and [str(e)], which may itself raise *)
  isinstance_Exception : Raised -> bool;
  str_exn : exn Raised -> Raised + str
}.

(** The text of [str(e)] when it returns one. *)
Definition str_of_exn {R : Runtime} (e : exn Raised) : str :=
  match str_exn e with
  | inr text => text
  | inl _ => []
  end.

Section Handler.
Context {R : Runtime}.

(** The calls made to the collaborators, as they happen. *)
Inductive call :=
| Call_generate_svg (seed : str)
| Call_svg2png (bytestring : bytes) (output_width output_height : Z)
| Call_Image_open (png : bytes)
| Call_save (first : Image) (kw : save_kwargs Image).

Record state := { world : World; calls : list call }.

Definition start (w : World) : state := {| world := w; calls := [] |}.

(** A computation either returns or raises, in a state. *)
Definition M (A : Type) : Type := state -> (exn Raised + A) * state.

Definition ret {A} (a : A) : M A := fun st => (inr a, st).

Definition raise {A} (e : exn Raised) : M A := fun st => (inl e, st).

Definition bind {A B} (m : M A) (k : A -> M B) : M B :=
  fun st =>
    match m st with
    | (inl e, st') => (inl e, st')
    | (inr a, st') => k a st'
    end.

Definition lift {A} (r : exn Raised + A) : M A := fun st => (r, st).

Definition foreign {A} (r : Raised + A) : exn Raised + A :=
  match r with
  | inl x => inl (Foreign x)
  | inr a => inr a
  end.

Definition log (c : call) (st : state) : state :=
  {| world := world st; calls := calls st ++ [c] |}.

Definition is_Exception (e : exn Raised) : bool :=
  match e with
  | Foreign x => isinstance_Exception x
  | _ => true
  end.

(** [try: body  except Exception as e: handler(e)] *)
Definition try_except {A} (body : M A) (handler : exn Raised -> M A) : M A :=
  fun st =>
    match body st with
    | (inl e, st') => if is_Exception e then handler e st' else (inl e, st')
    | (inr a, st') => (inr a, st')
    end.

End Handler.

Declare Scope py_scope.
Delimit Scope py_scope with py.
Notation "x <- m ;; k" := (bind m (fun x => k))
  (at level 100, m at next level, right associativity) : py_scope.

Section Handler_body.
Context {R : Runtime}.
Local Open Scope py_scope.
Local Open Scope Z_scope.

Definition do_generate_svg (seed : str) : M str :=
  fun st =>
    let (r, w) := generate_svg seed (world st) in
    (foreign r, {| world := w; calls := calls st ++ [Call_generate_svg seed] |}).

Definition do_svg2png (bytestring : bytes) (output_width output_height : Z)
  : M bytes :=
  fun st => (foreign (svg2png bytestring output_width output_height),
             log (Call_svg2png bytestring output_width output_height) st).

Definition do_Image_open (png : bytes) : M Image :=
  fun st => (foreign (Image_open png), log (Call_Image_open png) st).

Definition do_save (first : Image) (kw : save_kwargs Image) : M bytes :=
  fun st => (foreign (Image_save first kw), log (Call_save first kw) st).

(** Line 113: [request.args.get('seeds', 'default')]. *)
Definition seeds_param (req : request) : str :=
  match args_get (lit "seeds") (args req) with
  | Some v => v
  | None => lit "default"
  end.

(** Line 114: [int(request.args.get('duration', 1000))]. *)
Definition request_duration (req : request) : exn Raised + Z :=
  match args_get (lit "duration") (args req) with
  | Some v => py_int v
  | None => inr 1000
  end.

(** Line 132: [[s.strip() for s in seeds_param.split(',')]]. *)
Definition parse_seeds (raw : str) : list str := map strip (split comma raw).

(** Line 134: [not seeds or not seeds[0]]. *)
Definition seeds_missing (seeds : list str) : bool :=
  match seeds with
  | [] => true
  | [] :: _ => true
  | _ => false
  end.

(** Lines 144-150: one seed to one frame. *)
Definition render (seed : str) : M Image :=
  svg_content <- do_generate_svg seed ;;
  bytestring <- lift (encode_utf8 svg_content) ;;
  png_data <- do_svg2png bytestring 400 480 ;;
  do_Image_open png_data.

(** Lines 143-151: the loop, [frames] being the list built so far. *)
Fixpoint render_all (seeds : list str) (frames : list Image)
  : M (list Image) :=
  match seeds with
  | [] => ret frames
  | seed :: rest =>
      img <- render seed ;;
      render_all rest (frames ++ [img])
  end.

Definition gif_kwargs (rest : list Image) (d : Z) : save_kwargs Image :=
  {| format := lit "GIF"; save_all := true; append_images := rest;
     duration := d; loop := 0; optimize := true |}.

(** Lines 154-166: [frames[0].save(...)] and the response. *)
Definition assemble (frames : list Image) (d : Z) : M Response :=
  match frames with
  | [] => raise IndexError
  | first :: rest =>
      output <- do_save first (gif_kwargs rest d) ;;
      ret {| body := Data output; status := 200;
             mimetype := lit "image/gif" |}
  end.

Definition plain (s : str) (code : Z) : Response :=
  {| body := Text s; status := code; mimetype := lit "text/plain" |}.

Definition cairosvg_message : str :=
  lit "GIF generation requires cairosvg. Install: pip install cairosvg".
Definition pillow_message : str :=
  lit "GIF generation requires Pillow. Install: pip install pillow".
Definition seeds_message : str :=
  lit "Error: 'seeds' parameter required (comma-separated list)".
Definition failure_prefix : str := lit "Error generating GIF: ".

(** Lines 169-173: the body of the [except] clause. [str(e)] may raise,
    and [Response] encodes its text, which raises [UnicodeEncodeError] on a
    lone surrogate; nothing catches what is raised here. (The other texts
    the handler answers with are ASCII literals.) *)
Definition failure_response (e : exn Raised) : M Response :=
  text <- lift (foreign (str_exn e)) ;;
  let message := failure_prefix ++ text in
  encoded <- lift (encode_utf8 message) ;;
  ret (plain message 500).

(** Lines 130-173: the guarded part of the handler. *)
Definition generate (raw : str) (d : Z) : M Response :=
  try_except
    (let seeds := parse_seeds raw in
     if seeds_missing seeds then ret (plain seeds_message 400)
     else
       frames <- render_all seeds [] ;;
       assemble frames d)
    failure_response.

(** Lines 111-173. *)
Definition serve_face_gif (caps : capabilities) (req : request) : M Response :=
  let raw := seeds_param req in
  d <- lift (request_duration req) ;;
  if negb (HAS_CAIRO caps) then ret (plain cairosvg_message 500)
  else if negb (HAS_PIL caps) then ret (plain pillow_message 500)
  else generate raw d.

End Handler_body.

(** ** Reading a run *)

Section Reading.
Context {R : Runtime}.

(** The [Image.save] calls of a trace, in order. *)
Fixpoint saves (l : list call) : list (Image * save_kwargs Image) :=
  match l with
  | [] => []
  | Call_save first kw :: r => (first, kw) :: saves r
  | _ :: r => saves r
  end.

(** The seeds handed to [generate_svg], in order. *)
Fixpoint synthesized (l : list call) : list str :=
  match l with
  | [] => []
  | Call_generate_svg seed :: r => seed :: synthesized r
  | _ :: r => synthesized r
  end.

(** [generate_svg] is a pure function of its seed: what it returns (or
    raises) does not depend on the process state. *)
Definition synthesizer_pure : Prop :=
  forall seed w1 w2,
    fst (generate_svg seed w1) = fst (generate_svg seed w2).

(** The frame of a seed in process state [w], read off the collaborators:
    the drawing [generate_svg] returns, encoded in UTF-8, rasterized by
    [svg2png] at 400x480 and opened by [Image.open]. *)
Definition frame_in (w : World) (seed : str) : exn Raised + Image :=
  match fst (generate_svg seed w) with
  | inl x => inl (Foreign x)
  | inr svg_content =>
      match encode_utf8 svg_content with
      | inl e => inl e
      | inr bytestring =>
          match svg2png bytestring 400%Z 480%Z with
          | inl x => inl (Foreign x)
          | inr png_data => foreign (Image_open png_data)
          end
      end
  end.

(** What becomes of a caught exception [e], read off [str] and the UTF-8
    encoder: what [str(e)] raises; or [UnicodeEncodeError] when the message
    has a lone surrogate; or the 500 response with the message. *)
Definition failure_outcome (e : exn Raised) : exn Raised + Response :=
  match str_exn e with
  | inl x => inl (Foreign x)
  | inr text =>
      match encode_utf8 (failure_prefix ++ text) with
      | inl raised => inl raised
      | inr _ => inr (plain (failure_prefix ++ text) 500%Z)
      end
  end.

(** The successful response carrying the encoded animation [b]. *)
Definition gif_response (b : bytes) : Response :=
  {| body := Data b; status := 200%Z; mimetype := lit "image/gif" |}.

End Reading.

(** A token with no whitespace at either end. *)
Definition trimmed (t : str) : bool :=
  match t with
  | [] => true
  | c :: r => negb (isspace c) && negb (isspace (last r c))
  end.

(** The request of a query string given as ASCII pairs. *)
Definition query (l : list (string * string)) : request :=
  {| args := map (fun p => (lit (fst p), lit (snd p))) l |}.
Arguments query l%_list.

(** ** Two concrete runtimes *)

Module Demo.

(** The synthesizer wraps the seed in an [svg] element and counts its
    calls; the rasterizer and [Image.open] keep the bytes; the encoder
    writes the loop count, the duration in centiseconds and the frames. *)
Definition generate_svg (seed : str) (w : nat) : (unit + str) * nat :=
  (inr (lit "<svg>" ++ seed ++ lit "</svg>"), S w).

Definition svg2png (bytestring : bytes) (w h : Z) : unit + bytes :=
  inr bytestring.

Definition Image_open (png : bytes) : unit + bytes := inr png.

(** A 16-bit field, high octet first. *)
Definition u16 (z : Z) : bytes :=
  [octet (Z.to_N z / 256); octet (Z.to_N z)].

Definition Image_save (first : bytes) (kw : save_kwargs bytes)
  : unit + bytes :=
  inr (u16 (loop kw) ++ u16 (duration kw / 10)
       ++ List.concat (first :: append_images kw)).

(** The loop count of an encoded animation. *)
Definition gif_loop (b : bytes) : Z :=
  match b with
  | hi :: lo :: _ => Z.of_N (256 * Byte.to_N hi + Byte.to_N lo)
  | _ => 0
  end.

#[export] Instance runtime : Runtime :=
  @Build_Runtime nat unit bytes generate_svg svg2png Image_open Image_save
                 (fun _ => true) (fun _ => inr (lit "error")).

Definition both : capabilities := {| HAS_CAIRO := true; HAS_PIL := true |}.

(** One request served in a fresh trace, in process state [w]. *)
Definition fresh (w : nat) : state := start w.

Definition run (caps : capabilities) (req : request) (w : nat)
  : (exn unit + Response) * state :=
  serve_face_gif caps req (fresh w).

(** Sample requests and how they end. *)
Definition abc : request := query [("seeds", "a,b,c")]%string.
Definition abc_end := Eval vm_compute in run both abc 0.

Definition rocket : request :=
  query [("seeds", "rocket,sunset,ocean")]%string.
Definition rocket_end := Eval vm_compute in run both rocket 0.

Definition red_blue : request :=
  query [("seeds", "red,blue"); ("duration", "500")]%string.
Definition red_blue_end := Eval vm_compute in run both red_blue 0.

Definition still : request :=
  query [("seeds", "a"); ("duration", "0")]%string.
Definition still_end := Eval vm_compute in run both still 0.

Definition gap : request := query [("seeds", "a,,b")]%string.

Definition response_of (o : (exn unit + Response) * state) : Response :=
  match fst o with
  | inr r => r
  | inl _ => plain [] 0
  end.

End Demo.

Module Clocked.

(** A synthesizer that is not pure: it draws the process state. *)
Definition generate_svg (seed : str) (w : nat) : (unit + str) * nat :=
  (inr (seed ++ [N.of_nat w]), S w).

#[export] Instance runtime : Runtime :=
  @Build_Runtime nat unit bytes generate_svg Demo.svg2png Demo.Image_open
                 Demo.Image_save (fun _ => true) (fun _ => inr (lit "error")).

Definition run (caps : capabilities) (req : request) (w : nat)
  : (exn unit + Response) * state :=
  serve_face_gif caps req (start w).

End Clocked.

(** ** More readings of a request and of a run *)

(** The part of a string before its first comma. *)
Fixpoint until_comma (s : str) : str :=
  match s with
  | [] => []
  | c :: r => if c =? comma then [] else c :: until_comma r
  end.


Section Groups.
Context {R : Runtime}.

(** The three calls that turn one seed into one frame: the synthesizer on
    the seed, the rasterizer at 400x480 on the encoded drawing, [Image.open]
    on the picture. *)
Definition group (g : str * bytes * bytes) : list call :=
  let '(seed, bytestring, png) := g in
  [Call_generate_svg seed; Call_svg2png bytestring 400 480;
   Call_Image_open png].

Definition group_seed (g : str * bytes * bytes) : str := fst (fst g).

(** The data of full groups hang together, from process state [w] on: the
    synthesizer, called in the state the group before left, returned a
    drawing for the seed of the group; the rasterizer was given the UTF-8
    encoding of that drawing and returned a picture; [Image.open] was given
    that picture and returned the frame of the group. [w'] is the process
    state after the last group. *)
Fixpoint chain (w : World) (gs : list (str * bytes * bytes))
         (frames : list Image) (w' : World) : Prop :=
  match gs, frames with
  | [], [] => w' = w
  | (seed, bytestring, png) :: gs', img :: frames' =>
      exists svg_content w1,
        generate_svg seed w = (inr svg_content, w1)
        /\ encode_utf8 (X := Raised) svg_content = inr bytestring
        /\ svg2png bytestring 400 480 = inr png
        /\ Image_open png = inr img
        /\ chain w1 gs' frames' w'
  | _, _ => False
  end.

(** How the work on [seed], begun in process state [w], may stop short of
    a frame: the calls made and the exception raised. *)
Inductive cut_short (w : World) (seed : str)
  : list call -> exn Raised -> Prop :=
| synthesizer_raised x w' :
    generate_svg seed w = (inl x, w') ->
    cut_short w seed [Call_generate_svg seed] (Foreign x)
| drawing_refused svg_content w' e :
    generate_svg seed w = (inr svg_content, w') ->
    encode_utf8 svg_content = inl e ->
    cut_short w seed [Call_generate_svg seed] e
| rasterizer_raised svg_content w' bytestring x :
    generate_svg seed w = (inr svg_content, w') ->
    encode_utf8 (X := Raised) svg_content = inr bytestring ->
    svg2png bytestring 400 480 = inl x ->
    cut_short w seed
              [Call_generate_svg seed; Call_svg2png bytestring 400 480]
              (Foreign x)
| open_raised svg_content w' bytestring png x :
    generate_svg seed w = (inr svg_content, w') ->
    encode_utf8 (X := Raised) svg_content = inr bytestring ->
    svg2png bytestring 400 480 = inr png ->
    Image_open png = inl x ->
    cut_short w seed
              [Call_generate_svg seed; Call_svg2png bytestring 400 480;
               Call_Image_open png]
              (Foreign x).

End Groups.

(** ** [str(n)] for an [int] *)

(** The decimal digits of [n], most significant first; [fuel] bounds their
    number. *)
Fixpoint digits_fuel (fuel : nat) (n : N) : str :=
  match fuel with
  | O => []
  | S fuel' =>
      if n <? 10 then [0x30 + n]
      else digits_fuel fuel' (n / 10) ++ [0x30 + n mod 10]
  end.

(** A number has no more decimal digits than binary ones. *)
Definition digits (n : N) : str := digits_fuel (S (N.to_nat (N.size n))) n.

(** The number a string of ASCII digits denotes, continuing from [acc]. *)
Definition decimal_value (ds : str) (acc : N) : N :=
  fold_left (fun a c => 10 * a + (c - 0x30)) ds acc.

Definition ascii_digit (c : codepoint) : Prop := 0x30 <= c < 0x3a.

(** [str(z)]: the digits, after a minus sign for a negative number; a number
    of more than [int_max_str_digits] digits raises [ValueError]. *)
Definition py_str_int {X} (z : Z) : exn X + str :=
  let ds := digits (Z.abs_N z) in
  if Nat.ltb int_max_str_digits (List.length ds) then
    inl (ValueError_exceeds_limit (List.length ds))
  else inr (if (z <? 0)%Z then 0x2d :: ds else ds).

(** ** The entry point (lines 175-179) *)

(** What the entry point runs on: [print] and Flask's [app.run], each of
    which may raise. *)
Class Host := {
  Fault : Type;
  print : str -> Fault + unit;
  app_run : str -> Z -> bool -> Fault + unit
}.

Inductive event :=
| Call_print (line : str)
| Call_app_run (host : str) (port : Z) (debug : bool).

Definition starting_banner : str :=
  [0xf8ff; 0xfc; 0xe9; 0xa8] ++ lit " Dynamic GIF Generator Starting...".

Definition port_banner : str :=
  [0xf8ff; 0xfc; 0xec; 0xe7] ++ lit " Server running on port: ".

(** Line 176: [int(os.environ.get('PORT', 5000))]; [environ] is the mapping
    [os.environ]. *)
Definition environ_port {X} (environ : str -> option str) : exn X + Z :=
  match environ (lit "PORT") with
  | Some v => py_int v
  | None => inr 5000%Z
  end.

(** Lines 176-179, with the calls made on the way. *)
Definition main {H : Host} (environ : str -> option str)
  : (exn Fault + unit) * list event :=
  match environ_port environ with
  | inl e => (inl e, [])
  | inr port =>
      match print starting_banner with
      | inl x => (inl (Foreign x), [Call_print starting_banner])
      | inr _ =>
          match py_str_int port with
          | inl e => (inl e, [Call_print starting_banner])
          | inr text =>
              let line := port_banner ++ text in
              match print line with
              | inl x =>
                  (inl (Foreign x),
                   [Call_print starting_banner; Call_print line])
              | inr _ =>
                  (match app_run (lit "0.0.0.0") port false with
                   | inl x => inl (Foreign x)
                   | inr u => inr u
                   end,
                   [Call_print starting_banner; Call_print line;
                    Call_app_run (lit "0.0.0.0") port false])
              end
          end
      end
  end.

(** ** A runtime whose encoder is closer to Pillow's

    The encoder writes the loop count only when it writes a GIF of all the
    frames, and it merges a frame equal to the one before it, as Pillow's
    GIF writer does. An encoded animation is the loop count on two octets
    followed by the frames, each after its length. *)

Module Pillowish.

Fixpoint bytes_eqb (a b : bytes) : bool :=
  match a, b with
  | [], [] => true
  | x :: a', y :: b' => Byte.eqb x y && bytes_eqb a' b'
  | _, _ => false
  end.

Fixpoint merge_repeats (previous : bytes) (frames : list bytes)
  : list bytes :=
  match frames with
  | [] => []
  | f :: r => if bytes_eqb previous f then merge_repeats previous r
              else f :: merge_repeats f r
  end.

Definition write_frame (f : bytes) : bytes :=
  octet (N.of_nat (List.length f)) :: f.

Definition Image_save (first : bytes) (kw : save_kwargs bytes)
  : unit + bytes :=
  if str_eqb (format kw) (lit "GIF") && save_all kw then
    inr (Demo.u16 (loop kw)
         ++ flat_map write_frame
              (first :: merge_repeats first (append_images kw)))
  else inr (write_frame first).

Fixpoint read_frames (fuel : nat) (b : bytes) : list bytes :=
  match fuel, b with
  | S fuel', n :: r =>
      let k := N.to_nat (Byte.to_N n) in
      firstn k r :: read_frames fuel' (skipn k r)
  | _, _ => []
  end.

(** The frames of an encoded animation. *)
Definition gif_frames (b : bytes) : list bytes :=
  match b with
  | _ :: _ :: r => read_frames (List.length r) r
  | _ => []
  end.

#[export] Instance runtime : Runtime :=
  @Build_Runtime nat unit bytes Demo.generate_svg Demo.svg2png
                 Demo.Image_open Image_save
                 (fun _ => true) (fun _ => inr (lit "error")).

Definition fresh (w : nat) : state := start w.

Definition run (caps : capabilities) (req : request) (w : nat)
  : (exn unit + Response) * state :=
  serve_face_gif caps req (fresh w).

Definition twice : request := query [("seeds", "a,a")]%string.
Definition twice_end := Eval vm_compute in run Demo.both twice 0.

Definition pair : request := query [("seeds", "a,b")]%string.
Definition pair_end := Eval vm_compute in run Demo.both pair 0.

Definition rocket_end := Eval vm_compute in run Demo.both Demo.rocket 0.

(** The bytes of a response, none when it is a text. *)
Definition response_of (o : (exn unit + Response) * state) : Response :=
  match fst o with
  | inr r => r
  | inl _ => plain [] 0
  end.

Definition bytes_of (o : (exn unit + Response) * state) : bytes :=
  match body (response_of o) with
  | Data b => b
  | Text _ => []
  end.

(** The frame the collaborators make of a seed in the first world. *)
Definition frame_at_start (seed : str) : exn unit + bytes :=
  frame_in (R := runtime) (0%nat : nat) seed.

(** The frame of a seed in the sample runtime. *)
Definition frame_of (seed : string) : bytes :=
  match encode_utf8 (X := unit) (lit "<svg>" ++ lit seed ++ lit "</svg>") with
  | inr b => b
  | inl _ => []
  end.

End Pillowish.

(** ** A runtime whose failures carry the seed *)

Module Echo.

(** A synthesizer that raises an [Exception] whose text is the seed. *)
Definition generate_svg (seed : str) (w : unit) : (str + str) * unit :=
  (inl seed, w).

Definition svg2png (bytestring : bytes) (w h : Z) : str + bytes :=
  inr bytestring.

Definition Image_open (png : bytes) : str + bytes := inr png.

Definition Image_save (first : bytes) (kw : save_kwargs bytes)
  : str + bytes := inr first.

Definition str_exn (e : exn str) : str + str :=
  match e with
  | Foreign text => inr text
  | _ => inr (lit "error")
  end.

#[export] Instance runtime : Runtime :=
  @Build_Runtime unit str bytes generate_svg svg2png Image_open Image_save
                 (fun _ => true) str_exn.

Definition fresh : state := start tt.

Definition run (caps : capabilities) (req : request)
  : (exn str + Response) * state :=
  serve_face_gif caps req fresh.

(** A request whose seed is a lone surrogate. *)
Definition surrogate : request := {| args := [(lit "seeds", [0xd800])] |}.
Definition surrogate_end := Eval vm_compute in run Demo.both surrogate.

Definition plain_seed : request := query [("seeds", "a")]%string.
Definition plain_seed_end := Eval vm_compute in run Demo.both plain_seed.

End Echo.

(** ** More sample runs *)

Module Samples.


Definition unparsed : request :=
  query [("seeds", "a"); ("duration", "soon")]%string.

(** What the sample synthesizer draws for a lone surrogate and for an
    accented letter. *)
Definition lone : str := [0xd800].
Definition torn : str := lit "<svg>" ++ lone ++ lit "</svg>".
Definition accent : str := [0xe9].
Definition accented : str := lit "<svg>" ++ accent ++ lit "</svg>".

(** A console that prints everything and a server that returns. *)
#[export] Instance console : Host :=
  @Build_Host unit (fun _ => inr tt) (fun _ _ _ => inr tt).

Definition environment (port : string) : str -> option str :=
  fun name => if str_eqb name (lit "PORT") then Some (lit port) else None.

End Samples.

(** * Properties *)

(** ** [str] operations *)

Lemma str_eqb_eq (a b : str) : str_eqb a b = true <-> a = b.
Proof.
  revert b; induction a as [|x a IH]; intros [|y b]; simpl;
    try (split; [discriminate | intros E; discriminate E]).
  - split; reflexivity.
  - rewrite andb_true_iff, N.eqb_eq, IH. split.
    + intros [-> ->]; reflexivity.
    + intros E; injection E as -> ->; split; reflexivity.
Qed.

Lemma split_not_nil (sep : codepoint) (s : str) : split sep s <> [].
Proof.
  destruct s as [|c r]; simpl; [discriminate|].
  destruct (c =? sep); [discriminate|].
  destruct (split sep r); discriminate.
Qed.

(** Joining the pieces with the separator gives the string back. *)
Lemma join_split (sep : codepoint) (s : str) : join sep (split sep s) = s.
Proof.
  induction s as [|c r IH]; simpl; [reflexivity|].
  destruct (N.eqb_spec c sep) as [->|Hne].
  - simpl. pose proof (split_not_nil sep r) as Hn.
    destruct (split sep r) as [|p ps]; [contradiction|].
    simpl in IH |- *. rewrite IH. reflexivity.
  - pose proof (split_not_nil sep r) as Hn.
    destruct (split sep r) as [|p ps]; [contradiction|].
    destruct ps as [|q qs]; simpl in IH |- *; rewrite IH; reflexivity.
Qed.

(** No piece holds the separator. *)
Lemma split_no_sep (sep : codepoint) (s : str) :
  Forall (fun p => ~ In sep p) (split sep s).
Proof.
  induction s as [|c r IH]; simpl.
  - constructor; [intros []|constructor].
  - destruct (N.eqb_spec c sep) as [->|Hne].
    + constructor; [intros []|exact IH].
    + destruct (split sep r) as [|p ps].
      * constructor; [|constructor]. intros [E|[]]. congruence.
      * inversion IH as [|? ? Hp Hps]; subst.
        constructor; [|exact Hps]. intros [E|Hin]; [congruence|exact (Hp Hin)].
Qed.

Lemma lstrip_spec (s : str) :
  exists l, s = l ++ lstrip s /\ forallb isspace l = true.
Proof.
  induction s as [|c r [l [E Hl]]]; simpl.
  - exists []; split; reflexivity.
  - destruct (isspace c) eqn:Hc.
    + exists (c :: l). simpl. rewrite Hc, Hl. split; [f_equal; exact E|reflexivity].
    + exists []. split; reflexivity.
Qed.

Lemma rstrip_spec (s : str) :
  exists r, s = rstrip s ++ r /\ forallb isspace r = true.
Proof.
  induction s as [|c s' [r [E Hr]]]; simpl.
  - exists []; split; reflexivity.
  - destruct (rstrip s') as [|d t] eqn:Hs.
    + destruct (isspace c) eqn:Hc.
      * exists (c :: r). simpl in E |- *. subst s'. rewrite Hc, Hr.
        split; reflexivity.
      * exists r. simpl in E |- *. subst s'. split; [reflexivity|exact Hr].
    + exists r. split; [|exact Hr]. simpl. f_equal. exact E.
Qed.

(** What [strip] removes is whitespace, on both sides. *)
Lemma strip_spec (s : str) :
  exists l r, s = l ++ strip s ++ r
              /\ forallb isspace l = true /\ forallb isspace r = true.
Proof.
  destruct (lstrip_spec s) as [l [El Hl]].
  destruct (rstrip_spec (lstrip s)) as [r [Er Hr]].
  exists l, r. unfold strip. rewrite <- Er. auto.
Qed.

Lemma lstrip_head (s : str) :
  match lstrip s with
  | [] => True
  | c :: _ => isspace c = false
  end.
Proof.
  induction s as [|c r IH]; simpl; [exact I|].
  destruct (isspace c) eqn:Hc; [exact IH|exact Hc].
Qed.

Lemma rstrip_last (s : str) (d : codepoint) :
  rstrip s <> [] -> isspace (last (rstrip s) d) = false.
Proof.
  induction s as [|c r IH]; simpl; [congruence|].
  destruct (rstrip r) as [|e t] eqn:Hr.
  - destruct (isspace c) eqn:Hc; [congruence|]. intros _. exact Hc.
  - intros _. change (last (c :: e :: t) d) with (last (e :: t) d).
    apply IH. discriminate.
Qed.

Lemma rstrip_head (s : str) :
  match s with
  | [] => True
  | c :: _ => isspace c = false
  end ->
  match rstrip s with
  | [] => s = []
  | c :: _ => exists r, s = c :: r
  end.
Proof.
  destruct s as [|c r]; simpl; [reflexivity|]. intros Hc.
  destruct (rstrip r); [rewrite Hc|]; eauto.
Qed.

(** A stripped token has no whitespace at either end. *)
Lemma strip_trimmed (s : str) : trimmed (strip s) = true.
Proof.
  unfold strip, trimmed.
  pose proof (lstrip_head s) as Hh.
  pose proof (rstrip_head _ Hh) as Hr.
  destruct (rstrip (lstrip s)) as [|c t] eqn:E; [reflexivity|].
  destruct Hr as [r Hr]. rewrite Hr in Hh.
  rewrite Hh. simpl.
  pose proof (@rstrip_last (lstrip s) c) as Hl. rewrite E in Hl.
  assert (Hl' : isspace (last (c :: t) c) = false) by (apply Hl; discriminate).
  destruct t as [|e t']; simpl in Hl' |- *; rewrite Hl'; reflexivity.
Qed.

Lemma parse_seeds_not_nil (raw : str) : parse_seeds raw <> [].
Proof.
  unfold parse_seeds. pose proof (split_not_nil comma raw).
  destruct (split comma raw); [contradiction|discriminate].
Qed.

Lemma parse_seeds_trimmed (raw : str) :
  Forall (fun t => trimmed t = true) (parse_seeds raw).
Proof.
  unfold parse_seeds. apply Forall_forall. intros t Hin.
  apply in_map_iff in Hin. destruct Hin as [p [<- _]]. apply strip_trimmed.
Qed.

(** ** Runs of the handler *)

Section Runs.
Context {R : Runtime}.
Local Open Scope Z_scope.

Ltac unfold_run :=
  unfold render, assemble, bind, ret, raise, lift, try_except,
    do_generate_svg, do_svg2png, do_Image_open, do_save, log in *; simpl in *.

Lemma saves_app (l1 l2 : list call) : saves (l1 ++ l2) = saves l1 ++ saves l2.
Proof.
  induction l1 as [|c l1 IH]; simpl; [reflexivity|].
  destruct c; simpl; rewrite IH; reflexivity.
Qed.

Lemma synthesized_app (l1 l2 : list call) :
  synthesized (l1 ++ l2) = synthesized l1 ++ synthesized l2.
Proof.
  induction l1 as [|c l1 IH]; simpl; [reflexivity|].
  destruct c; simpl; rewrite IH; reflexivity.
Qed.

Lemma render_outcome (seed : str) (st : state) :
  fst (render seed st) = frame_in (world st) seed.
Proof.
  unfold frame_in. unfold_run.
  destruct (generate_svg seed (world st)) as [[x|svg] w]; simpl; [reflexivity|].
  destruct (encode_utf8 svg) as [e|bs]; simpl; [reflexivity|].
  destruct (svg2png bs 400 480) as [x|png]; simpl; reflexivity.
Qed.

(** With a pure synthesizer the frame of a seed is the same in every
    process state. *)
Lemma frame_in_pure (Hpure : synthesizer_pure) (seed : str) (w1 w2 : World) :
  frame_in w1 seed = frame_in w2 seed.
Proof. unfold frame_in. rewrite (Hpure seed w1 w2). reflexivity. Qed.

(** Rendering a seed calls the synthesizer first and never the encoder. *)
Lemma render_calls (seed : str) (st : state) :
  exists new,
    calls (snd (render seed st)) = calls st ++ Call_generate_svg seed :: new
    /\ saves new = [] /\ synthesized new = [].
Proof.
  unfold_run.
  destruct (generate_svg seed (world st)) as [[x|svg] w]; simpl.
  - exists []. auto.
  - destruct (encode_utf8 svg) as [e|bs]; simpl.
    + exists []. auto.
    + destruct (svg2png bs 400 480) as [x|png]; simpl.
      * exists [Call_svg2png bs 400 480]. rewrite <- app_assoc. auto.
      * exists [Call_svg2png bs 400 480; Call_Image_open png].
        rewrite <- !app_assoc. auto.
Qed.

Lemma render_all_step (seed : str) (rest : list str) (frames : list Image)
      (st : state) :
  render_all (seed :: rest) frames st =
  match render seed st with
  | (inl e, st1) => (inl e, st1)
  | (inr img, st1) => render_all rest (frames ++ [img]) st1
  end.
Proof. reflexivity. Qed.

(** The loop is deterministic once the synthesizer is pure. *)
Lemma render_all_outcome (Hpure : synthesizer_pure) (seeds : list str) :
  forall frames st1 st2,
    fst (render_all seeds frames st1) = fst (render_all seeds frames st2).
Proof.
  induction seeds as [|seed rest IH]; intros frames st1 st2; [reflexivity|].
  rewrite !render_all_step.
  pose proof (render_outcome seed st1) as E1.
  pose proof (render_outcome seed st2) as E2.
  rewrite (frame_in_pure Hpure seed (world st1) (world st2)) in E1.
  destruct (render seed st1) as [[e1|i1] s1];
    destruct (render seed st2) as [[e2|i2] s2]; simpl in *;
    try congruence.
  assert (i1 = i2) by congruence. subst i2. apply IH.
Qed.

(** The frames the loop returns are the frames of the seeds, in order,
    after those it started from: each is the frame of its seed in the
    process state the synthesizer was called in. *)
Lemma render_all_frames (seeds : list str) :
  forall frames st result st',
    render_all seeds frames st = (inr result, st') ->
    exists new,
      result = frames ++ new
      /\ Forall2 (fun seed img => exists w, frame_in w seed = inr img)
                 seeds new.
Proof.
  induction seeds as [|seed rest IH]; intros frames st result st' Hrun.
  - injection Hrun as <- <-. exists []. rewrite app_nil_r.
    split; [reflexivity|constructor].
  - rewrite render_all_step in Hrun.
    pose proof (render_outcome seed st) as E.
    destruct (render seed st) as [[e|img] st1]; [discriminate|]. simpl in E.
    destruct (IH _ _ _ _ Hrun) as [new [-> Hnew]].
    exists (img :: new). rewrite <- app_assoc. split; [reflexivity|].
    constructor; [exists (world st); symmetry; exact E|exact Hnew].
Qed.

(** With a pure synthesizer the state does not matter. *)
Lemma frames_in_any_state (Hpure : synthesizer_pure) (seeds : list str)
      (frames : list Image) :
  Forall2 (fun seed img => exists w, frame_in w seed = inr img) seeds frames ->
  forall w, map (frame_in w) seeds = map inr frames.
Proof.
  induction 1 as [|seed img seeds frames [w0 Hw0] _ IH]; intros w;
    [reflexivity|].
  simpl. rewrite (frame_in_pure Hpure seed w w0), Hw0, IH. reflexivity.
Qed.

(** The loop calls the synthesizer on the seeds in order, stopping at the
    first failure, and never calls the encoder. *)
Lemma render_all_calls (seeds : list str) :
  forall frames st,
    exists new n,
      calls (snd (render_all seeds frames st)) = calls st ++ new
      /\ saves new = []
      /\ synthesized new = firstn n seeds
      /\ (forall result, fst (render_all seeds frames st) = inr result ->
            synthesized new = seeds
            /\ List.length result = (List.length frames + List.length seeds)%nat).
Proof.
  induction seeds as [|seed rest IH]; intros frames st.
  - exists [], 0%nat. simpl. rewrite app_nil_r.
    split; [reflexivity|]. split; [reflexivity|]. split; [reflexivity|].
    intros result Hres. injection Hres as <-. split; [reflexivity|lia].
  - rewrite render_all_step.
    destruct (render_calls seed st) as [new1 [Hc [Hs Hg]]].
    destruct (render seed st) as [[e|img] st1]; simpl in Hc.
    + exists (Call_generate_svg seed :: new1), 1%nat. simpl.
      rewrite Hg. split; [exact Hc|]. split; [exact Hs|].
      split; [reflexivity|]. intros result Hres. discriminate Hres.
    + destruct (IH (frames ++ [img]) st1) as [new2 [n [Hc2 [Hs2 [Hg2 Hok]]]]].
      exists (Call_generate_svg seed :: new1 ++ new2), (S n).
      rewrite Hc2, Hc, <- app_assoc. simpl.
      rewrite saves_app, synthesized_app, Hs, Hs2, Hg. simpl.
      split; [reflexivity|]. split; [reflexivity|].
      split; [rewrite Hg2; reflexivity|].
      intros result Hres. destruct (Hok result Hres) as [-> ->].
      split; [reflexivity|]. rewrite length_app. simpl. lia.
Qed.

Lemma failure_response_outcome (e : exn Raised) (st : state) :
  failure_response e st = (failure_outcome e, st).
Proof.
  unfold failure_response, failure_outcome, bind, lift, ret, foreign.
  destruct (str_exn e) as [x|text]; [reflexivity|].
  destruct (encode_utf8 (failure_prefix ++ text)); reflexivity.
Qed.

(** When the [except] clause answers, it answers 500 with the failure
    prefix and the text of the exception. *)
Lemma failure_outcome_response (e : exn Raised) (r : Response) :
  failure_outcome e = inr r ->
  r = plain (failure_prefix ++ str_of_exn e) 500.
Proof.
  unfold failure_outcome, str_of_exn.
  destruct (str_exn e) as [x|text]; [discriminate|].
  destruct (encode_utf8 (failure_prefix ++ text)); [discriminate|].
  intros H; injection H as <-. reflexivity.
Qed.

(** How the guarded part of the handler ends, case by case. *)
Lemma generate_cases (raw : str) (d : Z) (st : state) :
  generate raw d st =
  if seeds_missing (parse_seeds raw) then (inr (plain seeds_message 400), st)
  else
    match render_all (parse_seeds raw) [] st with
    | (inl e, st1) =>
        if is_Exception e then (failure_outcome e, st1) else (inl e, st1)
    | (inr [], st1) => (failure_outcome IndexError, st1)
    | (inr (first :: rest), st1) =>
        let st2 := log (Call_save first (gif_kwargs rest d)) st1 in
        match Image_save first (gif_kwargs rest d) with
        | inl x =>
            if isinstance_Exception x
            then (failure_outcome (Foreign x), st2)
            else (inl (Foreign x), st2)
        | inr b => (inr (gif_response b), st2)
        end
    end.
Proof.
  unfold generate, try_except, bind.
  destruct (seeds_missing (parse_seeds raw)); [reflexivity|].
  destruct (render_all (parse_seeds raw) [] st) as [[e|[|first rest]] st1].
  - destruct (is_Exception e); [apply failure_response_outcome|reflexivity].
  - unfold assemble, raise. simpl. apply failure_response_outcome.
  - unfold assemble, bind, do_save, ret. simpl.
    destruct (Image_save first (gif_kwargs rest d)) as [x|b];
      [|reflexivity].
    simpl. destruct (isinstance_Exception x);
      [apply failure_response_outcome|reflexivity].
Qed.

Lemma serve_cases (caps : capabilities) (req : request) (st : state) :
  serve_face_gif caps req st =
  match request_duration req with
  | inl e => (inl e, st)
  | inr d =>
      if negb (HAS_CAIRO caps) then (inr (plain cairosvg_message 500), st)
      else if negb (HAS_PIL caps) then (inr (plain pillow_message 500), st)
      else generate (seeds_param req) d st
  end.
Proof.
  unfold serve_face_gif, bind, lift, ret.
  destruct (request_duration req) as [e|d]; [reflexivity|].
  destruct (HAS_CAIRO caps), (HAS_PIL caps); reflexivity.
Qed.

(** The loop never returns an empty list of frames for a non-empty list of
    seeds: [frames[0]] is always there. *)
Lemma render_all_not_nil (seeds : list str) (st st' : state) :
  seeds <> [] -> render_all seeds [] st <> (inr [], st').
Proof.
  intros Hne Hrun.
  destruct (render_all_calls seeds [] st) as [new [n [_ [_ [_ Hok]]]]].
  rewrite Hrun in Hok. destruct (Hok [] eq_refl) as [_ Hlen].
  destruct seeds; [contradiction|discriminate].
Qed.

(** A successful response, taken apart. *)
Lemma serve_success (caps : capabilities) (req : request) (st st' : state)
      (r : Response) :
  serve_face_gif caps req st = (inr r, st') ->
  status r = 200 ->
  exists d first rest b st1,
    HAS_CAIRO caps = true /\ HAS_PIL caps = true
    /\ request_duration req = inr d
    /\ seeds_missing (parse_seeds (seeds_param req)) = false
    /\ render_all (parse_seeds (seeds_param req)) [] st
       = (inr (first :: rest), st1)
    /\ Image_save first (gif_kwargs rest d) = inr b
    /\ r = gif_response b
    /\ st' = log (Call_save first (gif_kwargs rest d)) st1.
Proof.
  rewrite serve_cases. intros Hrun Hst.
  destruct (request_duration req) as [e|d]; [discriminate|].
  destruct (HAS_CAIRO caps);
    [|injection Hrun as <- _; discriminate Hst].
  destruct (HAS_PIL caps);
    [|injection Hrun as <- _; discriminate Hst].
  simpl in Hrun. rewrite generate_cases in Hrun.
  destruct (seeds_missing (parse_seeds (seeds_param req)));
    [injection Hrun as <- _; discriminate Hst|].
  destruct (render_all (parse_seeds (seeds_param req)) [] st)
    as [[e|[|first rest]] st1] eqn:Hloop.
  - destruct (is_Exception e); [|discriminate].
    injection Hrun as Hr _. apply failure_outcome_response in Hr.
    subst r. discriminate Hst.
  - injection Hrun as Hr _. apply failure_outcome_response in Hr.
    subst r. discriminate Hst.
  - simpl in Hrun.
    destruct (Image_save first (gif_kwargs rest d)) as [x|b] eqn:Hsave.
    + destruct (isinstance_Exception x); [|discriminate].
      injection Hrun as Hr _. apply failure_outcome_response in Hr.
      subst r. discriminate Hst.
    + injection Hrun as <- <-. exists d, first, rest, b, st1.
      repeat split; first [assumption | reflexivity].
Qed.

(** Conversely: with both capabilities, a duration that parses, a first
    seed that is not empty, frames for all the seeds and an encoder that
    returns, the response is the encoded animation. *)
Lemma serve_succeeds (caps : capabilities) (req : request) (st st1 : state)
      (d : Z) (first : Image) (rest : list Image) (b : bytes) :
  HAS_CAIRO caps = true -> HAS_PIL caps = true ->
  request_duration req = inr d ->
  seeds_missing (parse_seeds (seeds_param req)) = false ->
  render_all (parse_seeds (seeds_param req)) [] st
  = (inr (first :: rest), st1) ->
  Image_save first (gif_kwargs rest d) = inr b ->
  serve_face_gif caps req st
  = (inr (gif_response b), log (Call_save first (gif_kwargs rest d)) st1).
Proof.
  intros Hcairo Hpil Hd Hseeds Hloop Hsave.
  rewrite serve_cases, Hd, Hcairo, Hpil. simpl.
  rewrite generate_cases, Hseeds, Hloop. simpl. rewrite Hsave. reflexivity.
Qed.

(** Every exception of class [Exception] raised in the guarded part is
    caught: what leaves it is either no [Exception], or was raised by the
    [except] clause itself while it answered a caught one. *)
Lemma generate_catches (raw : str) (d : Z) (st st' : state)
      (e : exn Raised) :
  generate raw d st = (inl e, st') ->
  is_Exception e = false
  \/ exists caught,
      is_Exception caught = true /\ failure_outcome caught = inl e.
Proof.
  rewrite generate_cases.
  destruct (seeds_missing (parse_seeds raw)); [discriminate|].
  destruct (render_all (parse_seeds raw) [] st) as [[e'|[|first rest]] st1].
  - destruct (is_Exception e') eqn:He.
    + intros H; injection H as H _. right. exists e'. auto.
    + intros H; injection H as <- _. left. exact He.
  - intros H; injection H as H _. right. exists IndexError. auto.
  - simpl. destruct (Image_save first (gif_kwargs rest d)) as [x|b];
      [|discriminate].
    destruct (isinstance_Exception x) eqn:Hx.
    + intros H; injection H as H _. right. exists (Foreign x). auto.
    + intros H; injection H as <- _. left. exact Hx.
Qed.

(** With a duration that parses, the two capability checks come first and
    nothing else is done. *)
Lemma capability_gate (caps : capabilities) (req : request) (d : Z)
      (st : state) :
  request_duration req = inr d ->
  serve_face_gif caps req st =
  if negb (HAS_CAIRO caps) then (inr (plain cairosvg_message 500), st)
  else if negb (HAS_PIL caps) then (inr (plain pillow_message 500), st)
  else generate (seeds_param req) d st.
Proof. intros Hd. rewrite serve_cases, Hd. reflexivity. Qed.

(** The 400 response is produced only with both capabilities present. *)
Lemma bad_request_needs_capabilities (caps : capabilities) (req : request)
      (st st' : state) (r : Response) :
  serve_face_gif caps req st = (inr r, st') ->
  status r = 400 ->
  HAS_CAIRO caps = true /\ HAS_PIL caps = true.
Proof.
  rewrite serve_cases. intros Hrun Hst.
  destruct (request_duration req) as [e|d]; [discriminate|].
  destruct (HAS_CAIRO caps);
    [|injection Hrun as <- _; discriminate Hst].
  destruct (HAS_PIL caps);
    [|injection Hrun as <- _; discriminate Hst].
  split; reflexivity.
Qed.

(** An exception leaves the handler only from the parse of [duration],
    or when it is no [Exception], or from the [except] clause. *)
Lemma serve_raises (caps : capabilities) (req : request) (st st' : state)
      (e : exn Raised) :
  serve_face_gif caps req st = (inl e, st') ->
  (request_duration req = inl e /\ st' = st)
  \/ is_Exception e = false
  \/ exists caught,
      is_Exception caught = true /\ failure_outcome caught = inl e.
Proof.
  rewrite serve_cases.
  destruct (request_duration req) as [e'|d].
  - intros H; injection H as <- <-. left; split; reflexivity.
  - destruct (HAS_CAIRO caps); [|discriminate].
    destruct (HAS_PIL caps); [|discriminate]. simpl.
    intros H. right. exact (generate_catches _ _ _ H).
Qed.

(** ** Determinism *)

(** C1. With a pure synthesizer, two runs of the handler on requests that
    carry the same [seeds] and the same [duration] end the same way, in
    whatever process states they start and whatever else the requests hold:
    the same encoded animation, byte for byte, or the same error. *)
Theorem serve_face_gif_deterministic
        (Hpure : synthesizer_pure) (caps : capabilities)
        (req1 req2 : request) (st1 st2 : state) :
  args_get (lit "seeds") (args req1) = args_get (lit "seeds") (args req2) ->
  args_get (lit "duration") (args req1)
  = args_get (lit "duration") (args req2) ->
  fst (serve_face_gif caps req1 st1) = fst (serve_face_gif caps req2 st2).
Proof.
  intros Hseeds Hduration.
  rewrite !serve_cases. unfold request_duration, seeds_param.
  rewrite <- Hseeds, <- Hduration.
  set (raw := match args_get (lit "seeds") (args req1) with
              | Some v => v
              | None => lit "default"
              end).
  destruct (match args_get (lit "duration") (args req1) with
            | Some v => py_int v
            | None => inr 1000
            end) as [e|d]; [reflexivity|].
  destruct (HAS_CAIRO caps); [|reflexivity].
  destruct (HAS_PIL caps); [|reflexivity]. simpl.
  rewrite !generate_cases.
  destruct (seeds_missing (parse_seeds raw)); [reflexivity|].
  pose proof (render_all_outcome Hpure (parse_seeds raw) [] st1 st2) as Hloop.
  destruct (render_all (parse_seeds raw) [] st1) as [o1 s1].
  destruct (render_all (parse_seeds raw) [] st2) as [o2 s2].
  simpl in Hloop. subst o2.
  destruct o1 as [e|[|first rest]].
  - destruct (is_Exception e); reflexivity.
  - reflexivity.
  - simpl. destruct (Image_save first (gif_kwargs rest d)) as [x|b];
      [destruct (isinstance_Exception x)|]; reflexivity.
Qed.

(** ** Frame order *)

(** C2, as the code has it. A successful response carries what the encoder
    wrote when it was called, once, on the frames of the normalized seeds in
    the order of the seeds: the frame of the first seed, with the frames of
    the other seeds appended in order, each frame being the rasterized
    drawing of its seed, after the synthesizer has been called on each seed
    in order. (What the encoder keeps of these frames in the stream is its
    own matter.) *)
Theorem frames_follow_seed_order
        (caps : capabilities) (req : request)
        (st st' : state) (r : Response) :
  serve_face_gif caps req st = (inr r, st') ->
  status r = 200 ->
  exists first rest d b new,
    Forall2 (fun seed img => exists w, frame_in w seed = inr img)
            (parse_seeds (seeds_param req)) (first :: rest)
    /\ (synthesizer_pure ->
        forall w, map (frame_in w) (parse_seeds (seeds_param req))
                  = map inr (first :: rest))
    /\ calls st' = calls st ++ new
    /\ synthesized new = parse_seeds (seeds_param req)
    /\ saves new
       = [(first,
           {| format := lit "GIF"; save_all := true; append_images := rest;
              duration := d; loop := 0; optimize := true |})]
    /\ Image_save first
         {| format := lit "GIF"; save_all := true; append_images := rest;
            duration := d; loop := 0; optimize := true |} = inr b
    /\ r = gif_response b.
Proof.
  intros Hrun Hst.
  destruct (serve_success _ _ _ Hrun Hst)
    as [d [first [rest [b [st1 [_ [_ [_ [_ [Hloop [Hsave [-> ->]]]]]]]]]]]].
  destruct (render_all_frames _ _ _ Hloop) as [new [Hnew Hframes]].
  simpl in Hnew. subst new.
  destruct (render_all_calls (parse_seeds (seeds_param req)) [] st)
    as [tr [n [Hcalls [Hsaves [_ Hok]]]]].
  rewrite Hloop in Hcalls, Hok. simpl in Hcalls, Hok.
  destruct (Hok _ eq_refl) as [Hsyn _].
  exists first, rest, d, b, (tr ++ [Call_save first (gif_kwargs rest d)]).
  split; [exact Hframes|].
  split; [intros Hpure; exact (frames_in_any_state Hpure Hframes)|].
  split; [simpl; rewrite Hcalls, app_assoc; reflexivity|].
  split; [rewrite synthesized_app, Hsyn; simpl; apply app_nil_r|].
  split; [rewrite saves_app, Hsaves; reflexivity|].
  split; [exact Hsave|reflexivity].
Qed.

(** ** Loop count *)

(** C9. A successful response carries what the encoder wrote when it was
    called, once, to write a GIF of all the frames with loop count 0
    (format GIF, [save_all], [loop=0], [optimize]); with an encoder whose
    GIFs of all frames written with loop count 0 decode with loop count 0,
    the response decodes with loop count 0. *)
Theorem animation_loops_forever
        (caps : capabilities) (req : request) (st st' : state)
        (r : Response) :
  serve_face_gif caps req st = (inr r, st') ->
  status r = 200 ->
  exists first rest d b new,
    calls st' = calls st ++ new
    /\ saves new
       = [(first,
           {| format := lit "GIF"; save_all := true; append_images := rest;
              duration := d; loop := 0; optimize := true |})]
    /\ Image_save first
         {| format := lit "GIF"; save_all := true; append_images := rest;
            duration := d; loop := 0; optimize := true |} = inr b
    /\ body r = Data b
    /\ forall gif_loop : bytes -> Z,
         (forall f k out,
             format k = lit "GIF" -> save_all k = true -> loop k = 0 ->
             Image_save f k = inr out -> gif_loop out = 0) ->
         gif_loop b = 0.
Proof.
  intros Hrun Hst.
  destruct (serve_success _ _ _ Hrun Hst)
    as [d [first [rest [b [st1 [_ [_ [_ [_ [Hloop [Hsave [-> ->]]]]]]]]]]]].
  destruct (render_all_calls (parse_seeds (seeds_param req)) [] st)
    as [tr [n [Hcalls [Hsaves _]]]].
  rewrite Hloop in Hcalls. simpl in Hcalls.
  exists first, rest, d, b, (tr ++ [Call_save first (gif_kwargs rest d)]).
  split; [simpl; rewrite Hcalls, app_assoc; reflexivity|].
  split; [rewrite saves_app, Hsaves; reflexivity|].
  split; [exact Hsave|]. split; [reflexivity|].
  intros gif_loop Hdec.
  exact (Hdec first (gif_kwargs rest d) b eq_refl eq_refl eq_refl Hsave).
Qed.

(** ** Frame duration *)

(** C7, as the code has it. A successful response carries what the encoder
    wrote when called with the integer the [duration] parameter parses to,
    whatever its sign, and with 1000 when the parameter is absent. *)
Theorem duration_passed_as_parsed
        (caps : capabilities) (req : request) (st st' : state)
        (r : Response) :
  serve_face_gif caps req st = (inr r, st') ->
  status r = 200 ->
  exists first kw b new,
    calls st' = calls st ++ new
    /\ saves new = [(first, kw)]
    /\ Image_save first kw = inr b
    /\ body r = Data b
    /\ match args_get (lit "duration") (args req) with
       | Some v => py_int v = inr (A:=exn Raised) (duration kw)
       | None => duration kw = 1000
       end.
Proof.
  intros Hrun Hst.
  destruct (serve_success _ _ _ Hrun Hst)
    as [d [first [rest [b [st1 [_ [_ [Hd [_ [Hloop [Hsave [-> ->]]]]]]]]]]]].
  destruct (render_all_calls (parse_seeds (seeds_param req)) [] st)
    as [tr [n [Hcalls [Hsaves _]]]].
  rewrite Hloop in Hcalls. simpl in Hcalls.
  exists first, (gif_kwargs rest d), b,
    (tr ++ [Call_save first (gif_kwargs rest d)]).
  split; [simpl; rewrite Hcalls, app_assoc; reflexivity|].
  split; [rewrite saves_app, Hsaves; reflexivity|].
  split; [exact Hsave|]. split; [reflexivity|].
  unfold request_duration in Hd. simpl.
  destruct (args_get (lit "duration") (args req)) as [v|];
    [exact Hd|congruence].
Qed.

(** ** Seed normalisation *)

(** The calls of a run: the synthesizer is called on a prefix of the
    normalized seeds, in order, and only when the first seed is not empty. *)
Lemma serve_calls (caps : capabilities) (req : request) (st : state) :
  exists new n,
    calls (snd (serve_face_gif caps req st)) = calls st ++ new
    /\ synthesized new = firstn n (parse_seeds (seeds_param req))
    /\ (synthesized new <> [] ->
        seeds_missing (parse_seeds (seeds_param req)) = false).
Proof.
  assert (Hidle : exists new n,
             calls st = calls st ++ new
             /\ synthesized new = firstn n (parse_seeds (seeds_param req))
             /\ (synthesized new <> [] ->
                 seeds_missing (parse_seeds (seeds_param req)) = false)).
  { exists [], 0%nat. rewrite app_nil_r. simpl.
    split; [reflexivity|]. split; [reflexivity|]. intros H; contradiction. }
  rewrite serve_cases.
  destruct (request_duration req) as [e|d]; [exact Hidle|].
  destruct (HAS_CAIRO caps); [|exact Hidle].
  destruct (HAS_PIL caps); [|exact Hidle]. simpl.
  rewrite generate_cases.
  destruct (seeds_missing (parse_seeds (seeds_param req))) eqn:Hmiss;
    [exact Hidle|].
  destruct (render_all_calls (parse_seeds (seeds_param req)) [] st)
    as [tr [n [Hcalls [_ [Hsyn _]]]]].
  destruct (render_all (parse_seeds (seeds_param req)) [] st)
    as [[e|[|first rest]] st1]; simpl in Hcalls.
  - exists tr, n. destruct (is_Exception e); simpl; auto.
  - exists tr, n. simpl; auto.
  - exists (tr ++ [Call_save first (gif_kwargs rest d)]), n.
    assert (Hlog : calls (log (Call_save first (gif_kwargs rest d)) st1)
                   = calls st ++ tr ++ [Call_save first (gif_kwargs rest d)]).
    { simpl. rewrite Hcalls, app_assoc. reflexivity. }
    rewrite synthesized_app. simpl. rewrite app_nil_r.
    destruct (Image_save first (gif_kwargs rest d)) as [x|b];
      [destruct (isinstance_Exception x)|]; simpl; auto.
Qed.

(** C3, as the code has it. The normalized seeds are a non-empty list of
    trimmed tokens; when the list is not rejected its first token is not
    empty (the later ones may be); the synthesizer is called on the tokens
    of a list that was not rejected, in order, and on nothing else. *)
Theorem normalized_seeds_trimmed (raw : str) :
  parse_seeds raw <> []
  /\ Forall (fun t => trimmed t = true) (parse_seeds raw)
  /\ (seeds_missing (parse_seeds raw) = false ->
      exists t rest, parse_seeds raw = t :: rest /\ t <> [])
  /\ forall caps req st,
       seeds_param req = raw ->
       exists new n,
         calls (snd (serve_face_gif caps req st)) = calls st ++ new
         /\ synthesized new = firstn n (parse_seeds raw)
         /\ (synthesized new <> [] -> seeds_missing (parse_seeds raw) = false).
Proof.
  split; [apply parse_seeds_not_nil|].
  split; [apply parse_seeds_trimmed|].
  split.
  - intros Hok. destruct (parse_seeds raw) as [|t rest]; [discriminate|].
    exists t, rest. split; [reflexivity|]. intros ->. discriminate.
  - intros caps req st <-. apply serve_calls.
Qed.

(** C4, as the code has it. With both capabilities and a duration that
    parses: a request without [seeds] is served as the single seed
    [default] and is never answered 400; a request whose [seeds] is empty,
    or is a lone comma, is answered 400 with the fixed message, before any
    call to the collaborators. *)
Theorem default_seed_and_rejection
        (caps : capabilities) (req : request) (d : Z) (st : state) :
  HAS_CAIRO caps = true ->
  HAS_PIL caps = true ->
  request_duration req = inr d ->
  (args_get (lit "seeds") (args req) = None ->
     parse_seeds (seeds_param req) = [lit "default"]
     /\ serve_face_gif caps req st = generate (lit "default") d st
     /\ (forall r, fst (serve_face_gif caps req st) = inr r ->
                   status r <> 400)
     /\ exists new,
          calls (snd (serve_face_gif caps req st))
          = calls st ++ Call_generate_svg (lit "default") :: new)
  /\ (args_get (lit "seeds") (args req) = Some (lit "") ->
      serve_face_gif caps req st = (inr (plain seeds_message 400), st))
  /\ (args_get (lit "seeds") (args req) = Some (lit ",") ->
      serve_face_gif caps req st = (inr (plain seeds_message 400), st)).
Proof.
  intros Hcairo Hpil Hd.
  rewrite (capability_gate caps req st Hd), Hcairo, Hpil. simpl.
  unfold seeds_param.
  split; [|split]; intros ->; [|reflexivity|reflexivity].
  split; [reflexivity|]. split; [reflexivity|].
  rewrite generate_cases.
  change (parse_seeds (lit "default")) with [lit "default"].
  change (seeds_missing [lit "default"]) with false. cbv iota.
  change (render_all [lit "default"] [] st)
    with (render_all (lit "default" :: []) [] st).
  rewrite render_all_step.
  destruct (render_calls (lit "default") st) as [tr [Hcalls _]].
  destruct (render (lit "default") st) as [[e|img] st1];
    simpl in Hcalls |- *.
  - destruct (is_Exception e); simpl;
      (split; [intros r Hr; try discriminate Hr;
               first [apply failure_outcome_response in Hr; subst r
                     |injection Hr as <-];
               simpl; discriminate|eauto]).
  - assert (Hlog : calls (log (Call_save img (gif_kwargs [] d)) st1)
                   = calls st ++ Call_generate_svg (lit "default")
                       :: tr ++ [Call_save img (gif_kwargs [] d)]).
    { simpl. rewrite Hcalls, <- app_assoc. reflexivity. }
    destruct (Image_save img (gif_kwargs [] d)) as [x|b];
      [destruct (isinstance_Exception x)|]; simpl;
      (split; [intros r Hr; try discriminate Hr;
               first [apply failure_outcome_response in Hr; subst r
                     |injection Hr as <-];
               simpl; discriminate|eauto]).
Qed.

(** ** A malformed duration *)

(** C5 at [seeds=x&duration=abc] without cairosvg: [int] raises before the
    capability checks; the handler answers nothing and [ValueError] leaves
    it. *)
Theorem bad_duration_precedes_cairosvg_check (st : state) :
  serve_face_gif {| HAS_CAIRO := false; HAS_PIL := true |}
                 (query [("seeds", "x"); ("duration", "abc")]%string) st
  = (inl (ValueError_invalid_literal (lit "abc")), st).
Proof. rewrite serve_cases. reflexivity. Qed.

(** C6 at [seeds=rocket&duration=fast] with both capabilities: the
    [ValueError] of [int], an [Exception], is raised outside the [try] and
    leaves the handler instead of becoming a 500 response. *)
Theorem bad_duration_escapes_catch_all (st : state) :
  serve_face_gif {| HAS_CAIRO := true; HAS_PIL := true |}
                 (query [("seeds", "rocket"); ("duration", "fast")]%string) st
  = (inl (ValueError_invalid_literal (lit "fast")), st)
  /\ is_Exception (ValueError_invalid_literal (X:=Raised) (lit "fast"))
     = true.
Proof. rewrite serve_cases. split; reflexivity. Qed.

(** C10 at [seeds=&duration=1.5] without Pillow: the parse of [duration]
    comes before the capability checks, so the request is answered by
    neither the Pillow message nor any response. *)
Theorem bad_duration_precedes_pillow_check (st : state) :
  serve_face_gif {| HAS_CAIRO := true; HAS_PIL := false |}
                 (query [("seeds", ""); ("duration", "1.5")]%string) st
  = (inl (ValueError_invalid_literal (lit "1.5")), st).
Proof. rewrite serve_cases. reflexivity. Qed.

End Runs.

(** C8. The normalized seeds are the pieces between the commas of the raw
    string, in order, each without the whitespace around it. *)
Theorem seeds_split_and_stripped (raw : str) :
  (exists pieces,
      join comma pieces = raw
      /\ Forall (fun p => ~ In comma p) pieces
      /\ parse_seeds raw = map strip pieces
      /\ Forall (fun p => exists l r,
                     p = l ++ strip p ++ r
                     /\ forallb isspace l = true
                     /\ forallb isspace r = true
                     /\ trimmed (strip p) = true) pieces)
  /\ parse_seeds (lit " a , b ") = [lit "a"; lit "b"].
Proof.
  split; [|reflexivity].
  exists (split comma raw).
  split; [apply join_split|]. split; [apply split_no_sep|].
  split; [reflexivity|].
  apply Forall_forall. intros p _.
  destruct (strip_spec p) as [l [r [E [Hl Hr]]]].
  exists l, r. repeat split; auto using strip_trimmed.
Qed.

(** ** The properties at work on the sample runtime *)

Lemma demo_pure : synthesizer_pure (R := Demo.runtime).
Proof. intros seed w1 w2. reflexivity. Defined.

(** The purity of the synthesizer is needed: with one that draws the
    process state, the same request served in two states gives two
    different animations. *)
Lemma impure_synthesizer_not_deterministic :
  fst (Clocked.run Demo.both (query [("seeds", "a")]%string) 0)
  <> fst (Clocked.run Demo.both (query [("seeds", "a")]%string) 1).
Proof. vm_compute. discriminate. Qed.

Lemma serve_face_gif_deterministic_witness :
  synthesizer_pure (R := Demo.runtime)
  /\ fst (Demo.run Demo.both
           (query [("seeds", "a,b"); ("duration", "500")]%string) 0)
     = fst (Demo.run Demo.both
              (query [("duration", "500"); ("theme", "dark");
                      ("seeds", "a,b")]%string) 7).
Proof.
  split; [exact demo_pure|].
  apply (serve_face_gif_deterministic (R := Demo.runtime) demo_pure);
    reflexivity.
Defined.

Lemma frames_follow_seed_order_witness :
  Demo.run Demo.both Demo.abc 0 = Demo.abc_end
  /\ exists first rest d b new,
       Forall2 (fun seed img =>
                  exists w, frame_in (R := Demo.runtime) w seed = inr img)
               [lit "a"; lit "b"; lit "c"] (first :: rest)
       /\ (synthesizer_pure (R := Demo.runtime) ->
           forall w, map (frame_in (R := Demo.runtime) w)
                         [lit "a"; lit "b"; lit "c"]
                     = map inr (first :: rest))
       /\ calls (snd Demo.abc_end) = [] ++ new
       /\ synthesized new = [lit "a"; lit "b"; lit "c"]
       /\ saves new
          = [(first,
              {| format := lit "GIF"; save_all := true;
                 append_images := rest; duration := d; loop := 0%Z;
                 optimize := true |})]
       /\ Image_save first
            {| format := lit "GIF"; save_all := true;
               append_images := rest; duration := d; loop := 0%Z;
               optimize := true |} = inr b
       /\ Demo.response_of Demo.abc_end = gif_response b.
Proof.
  split; [reflexivity|].
  apply (frames_follow_seed_order (R := Demo.runtime)
           Demo.both Demo.abc (Demo.fresh 0)); reflexivity.
Defined.

(** C2 as stated fails: with an encoder that merges a frame equal to the
    one before it, as Pillow's does, the animation encoded for [a,a] holds
    one frame where the seeds have two frames; for [a,b] it holds both. *)
Lemma encoded_frames_merge_repeats :
  Pillowish.run Demo.both Pillowish.twice 0 = Pillowish.twice_end
  /\ fst Pillowish.twice_end
     = inr (gif_response (Pillowish.bytes_of Pillowish.twice_end))
  /\ parse_seeds (seeds_param Pillowish.twice) = [lit "a"; lit "a"]
  /\ map Pillowish.frame_at_start [lit "a"; lit "a"]
     = [inr (Pillowish.frame_of "a"); inr (Pillowish.frame_of "a")]
  /\ map (fun call => fst call :: append_images (snd call))
         (saves (calls (snd Pillowish.twice_end)))
     = [[Pillowish.frame_of "a"; Pillowish.frame_of "a"]]
  /\ Pillowish.gif_frames (Pillowish.bytes_of Pillowish.twice_end)
     = [Pillowish.frame_of "a"]
  /\ Pillowish.gif_frames (Pillowish.bytes_of Pillowish.pair_end)
     = [Pillowish.frame_of "a"; Pillowish.frame_of "b"].
Proof. repeat split. Qed.

(** The sample encoder writes loop count 0 in the GIFs of all frames it is
    asked to write with loop count 0. *)
Lemma pillowish_gif_loop (f : bytes) (k : save_kwargs bytes) (out : bytes) :
  format k = lit "GIF" -> save_all k = true -> loop k = 0%Z ->
  Pillowish.Image_save f k = inr out -> Demo.gif_loop out = 0%Z.
Proof.
  intros Hformat Hall Hloop H. unfold Pillowish.Image_save in H.
  rewrite Hformat, Hall, Hloop in H.
  change (str_eqb (lit "GIF") (lit "GIF") && true) with true in H.
  cbv iota in H. injection H as <-. reflexivity.
Qed.

Lemma animation_loops_forever_witness :
  Pillowish.run Demo.both Demo.rocket 0 = Pillowish.rocket_end
  /\ exists first rest d b new,
       calls (snd Pillowish.rocket_end) = new
       /\ saves new
          = [(first,
              {| format := lit "GIF"; save_all := true;
                 append_images := rest; duration := d; loop := 0%Z;
                 optimize := true |})]
       /\ Image_save (Runtime := Pillowish.runtime) first
            {| format := lit "GIF"; save_all := true;
               append_images := rest; duration := d; loop := 0%Z;
               optimize := true |} = inr b
       /\ body (Pillowish.response_of Pillowish.rocket_end) = Data b
       /\ Demo.gif_loop b = 0%Z.
Proof.
  split; [reflexivity|].
  destruct (animation_loops_forever
              (R := Pillowish.runtime) Demo.both Demo.rocket
              (Pillowish.fresh 0)
              (st' := snd Pillowish.rocket_end)
              (r := Pillowish.response_of Pillowish.rocket_end)
              eq_refl eq_refl)
    as [first [rest [d [b [new [Hcalls [Hsaves [Hsave [Hbody Hdec]]]]]]]]].
  exists first, rest, d, b, new.
  split; [exact Hcalls|]. split; [exact Hsaves|]. split; [exact Hsave|].
  split; [exact Hbody|]. apply Hdec. exact pillowish_gif_loop.
Defined.

Lemma duration_passed_as_parsed_witness :
  Demo.run Demo.both Demo.red_blue 0 = Demo.red_blue_end
  /\ exists first kw b new,
       calls (snd Demo.red_blue_end) = [] ++ new
       /\ saves new = [(first, kw)]
       /\ Image_save first kw = inr b
       /\ body (Demo.response_of Demo.red_blue_end) = Data b
       /\ py_int (lit "500") = inr (A := exn unit) (duration kw).
Proof.
  split; [reflexivity|].
  apply (duration_passed_as_parsed (R := Demo.runtime)
           Demo.both Demo.red_blue (Demo.fresh 0)); reflexivity.
Defined.

(** C7 as stated fails: [duration=0] is served, the encoder being called
    with duration 0. *)
Lemma zero_duration_served :
  Demo.run Demo.both Demo.still 0 = Demo.still_end
  /\ status (Demo.response_of Demo.still_end) = 200%Z
  /\ fst Demo.still_end = inr (Demo.response_of Demo.still_end)
  /\ map (fun p => duration (snd p)) (saves (calls (snd Demo.still_end)))
     = [0%Z].
Proof. repeat split. Qed.

Lemma normalized_seeds_trimmed_witness :
  seeds_missing (parse_seeds (lit "a,,b")) = false
  /\ seeds_param Demo.gap = lit "a,,b"
  /\ (exists t rest, parse_seeds (lit "a,,b") = t :: rest /\ t <> [])
  /\ exists new n,
       calls (snd (Demo.run Demo.both Demo.gap 0)) = [] ++ new
       /\ synthesized new = firstn n (parse_seeds (lit "a,,b"))
       /\ (synthesized new <> [] ->
           seeds_missing (parse_seeds (lit "a,,b")) = false).
Proof.
  split; [reflexivity|]. split; [reflexivity|].
  destruct (normalized_seeds_trimmed (R := Demo.runtime) (lit "a,,b"))
    as [_ [_ [Hfirst Hcalls]]].
  split; [exact (Hfirst eq_refl)|].
  exact (Hcalls Demo.both Demo.gap (Demo.fresh 0) eq_refl).
Defined.

(** C3 as stated fails: the token between the two commas of [a,,b] is
    empty, stays in the list and reaches the synthesizer. *)
Lemma empty_token_reaches_synthesizer :
  parse_seeds (lit "a,,b") = [lit "a"; lit ""; lit "b"]
  /\ synthesized (calls (snd (Demo.run Demo.both Demo.gap 0)))
     = [lit "a"; lit ""; lit "b"]
  /\ exists r, fst (Demo.run Demo.both Demo.gap 0) = inr r
               /\ status r = 200%Z.
Proof.
  split; [reflexivity|]. split; [reflexivity|].
  eexists. split; reflexivity.
Qed.

Lemma default_seed_and_rejection_witness :
  (parse_seeds (seeds_param (query [("duration", "250")]%string))
   = [lit "default"]
   /\ forall r,
        fst (Demo.run Demo.both (query [("duration", "250")]%string) 0)
        = inr r -> status r <> 400%Z)
  /\ Demo.run Demo.both (query [("seeds", "")]%string) 0
     = (inr (plain seeds_message 400), Demo.fresh 0)
  /\ Demo.run Demo.both (query [("seeds", ","); ("duration", "250")]%string) 0
     = (inr (plain seeds_message 400), Demo.fresh 0).
Proof.
  split; [|split].
  - destruct (default_seed_and_rejection (R := Demo.runtime)
                Demo.both (query [("duration", "250")]%string) (d := 250)
                (Demo.fresh 0) eq_refl eq_refl eq_refl) as [H _].
    destruct (H eq_refl) as [Hseeds [_ [Hstatus _]]].
    split; [exact Hseeds|exact Hstatus].
  - destruct (default_seed_and_rejection (R := Demo.runtime)
                Demo.both (query [("seeds", "")]%string) (d := 1000)
                (Demo.fresh 0) eq_refl eq_refl eq_refl) as [_ [H _]].
    exact (H eq_refl).
  - destruct (default_seed_and_rejection (R := Demo.runtime)
                Demo.both (query [("seeds", ","); ("duration", "250")]%string)
                (d := 250) (Demo.fresh 0) eq_refl eq_refl eq_refl) as [_ [_ H]].
    exact (H eq_refl).
Defined.

(** C4 as stated fails: [seeds=] does not fall back to [default]; it is
    answered 400. *)
Lemma explicit_empty_seeds_rejected :
  seeds_param (query [("seeds", "")]%string) = lit ""
  /\ Demo.run Demo.both (query [("seeds", "")]%string) 0
     = (inr (plain seeds_message 400), Demo.fresh 0).
Proof. split; reflexivity. Qed.

(** * Further properties of the handler *)

(** ** Pieces and commas *)

Lemma split_hd (s : str) : hd [] (split comma s) = until_comma s.
Proof.
  induction s as [|c r IH]; simpl; [reflexivity|].
  destruct (c =? comma); [reflexivity|].
  destruct (split comma r) as [|p ps]; simpl in *; rewrite <- IH; reflexivity.
Qed.


Lemma lstrip_blank (s : str) : forallb isspace s = true -> lstrip s = [].
Proof.
  induction s as [|c r IH]; simpl; [reflexivity|].
  intros H. apply andb_true_iff in H. destruct H as [Hc Hr].
  rewrite Hc. exact (IH Hr).
Qed.

(** A piece strips to nothing exactly when it is all whitespace. *)
Lemma strip_nil_iff (p : str) : strip p = [] <-> forallb isspace p = true.
Proof.
  split.
  - intros E. destruct (strip_spec p) as [l [r [Hp [Hl Hr]]]].
    rewrite E in Hp. simpl in Hp. rewrite Hp, forallb_app, Hl, Hr.
    reflexivity.
  - intros H. unfold strip. rewrite (lstrip_blank _ H). reflexivity.
Qed.

(** The seeds are missing exactly when nothing but whitespace comes before
    the first comma. *)
Lemma seeds_missing_iff (raw : str) :
  seeds_missing (parse_seeds raw) = true
  <-> forallb isspace (until_comma raw) = true.
Proof.
  rewrite <- split_hd, <- strip_nil_iff. unfold parse_seeds.
  pose proof (split_not_nil comma raw) as Hn.
  destruct (split comma raw) as [|p ps]; [contradiction|]. simpl.
  destruct (strip p); split; intros H; try reflexivity; discriminate.
Qed.

Lemma args_get_app (key : str) (l1 l2 : list (str * str)) :
  args_get key (l1 ++ l2) =
  match args_get key l1 with
  | Some v => Some v
  | None => args_get key l2
  end.
Proof.
  induction l1 as [|[k v] l1 IH]; simpl; [reflexivity|].
  destruct (str_eqb k key); [reflexivity|exact IH].
Qed.

(** ** UTF-8 *)

Lemma utf8_char_length (c : codepoint) :
  (1 <= List.length (utf8_char c) <= 4)%nat.
Proof.
  unfold utf8_char.
  destruct (c <? 0x80); [simpl; lia|].
  destruct (c <? 0x800); [simpl; lia|].
  destruct (c <? 0x10000); simpl; lia.
Qed.

Lemma surrogate_run_bound (s : str) :
  (surrogate_run s <= List.length s)%nat.
Proof.
  induction s as [|c r IH]; simpl; [lia|].
  destruct (is_surrogate c); lia.
Qed.

(** A string without surrogates is encoded, in one to four octets a code
    point. *)
Lemma utf8_from_encodes {X} (whole s : str) :
  existsb is_surrogate s = false ->
  forall pos,
    exists bs,
      utf8_from (X := X) whole pos s = inr bs
      /\ (List.length s <= List.length bs <= 4 * List.length s)%nat.
Proof.
  induction s as [|c r IH]; intros Hs pos; simpl.
  - exists []. simpl. split; [reflexivity|lia].
  - simpl in Hs. apply orb_false_iff in Hs. destruct Hs as [Hc Hr].
    rewrite Hc. destruct (IH Hr (S pos)) as [bs [-> Hlen]].
    exists (utf8_char c ++ bs). split; [reflexivity|].
    rewrite length_app. pose proof (utf8_char_length c). lia.
Qed.

(** A string with a surrogate is refused at its first surrogate. *)
Lemma utf8_from_refuses {X} (whole s : str) :
  existsb is_surrogate s = true ->
  forall pos,
    exists start stop,
      utf8_from (X := X) whole pos s
      = inl (UnicodeEncodeError whole start stop)
      /\ (pos <= start /\ start < stop /\ stop <= pos + List.length s)%nat
      /\ is_surrogate (nth (start - pos) s 0) = true
      /\ existsb is_surrogate (firstn (start - pos) s) = false.
Proof.
  induction s as [|c r IH]; intros Hs pos; simpl in Hs; [discriminate|].
  cbn [utf8_from].
  destruct (is_surrogate c) eqn:Hc.
  - exists pos, (pos + surrogate_run (c :: r))%nat.
    split; [reflexivity|].
    pose proof (surrogate_run_bound (c :: r)) as Hb.
    assert (Hrun : (1 <= surrogate_run (c :: r))%nat)
      by (simpl; rewrite Hc; lia).
    rewrite Nat.sub_diag.
    set (n := surrogate_run (c :: r)) in *. simpl in Hb.
    split; [simpl; lia|]. simpl. split; [exact Hc|reflexivity].
  - simpl in Hs. destruct (IH Hs (S pos))
      as [start [stop [-> [Hpos [Hnth Hfirst]]]]].
    exists start, stop. split; [reflexivity|].
    split; [simpl; lia|].
    replace (start - pos)%nat with (S (start - S pos)) by lia.
    simpl. rewrite Hc. split; [exact Hnth|exact Hfirst].
Qed.

(** What the UTF-8 encoder raises is a [UnicodeEncodeError] about the
    string it was given, which holds a surrogate. *)
Lemma encode_utf8_error {X} (s : str) (e : exn X) :
  encode_utf8 s = inl e ->
  existsb is_surrogate s = true
  /\ exists start stop, e = UnicodeEncodeError s start stop.
Proof.
  unfold encode_utf8. intros H.
  destruct (existsb is_surrogate s) eqn:Hs.
  - split; [reflexivity|].
    destruct (utf8_from_refuses (X := X) s s Hs 0)
      as [start [stop [Hr _]]].
    rewrite Hr in H. injection H as <-. eauto.
  - destruct (utf8_from_encodes (X := X) s s Hs 0) as [bs [Hr _]].
    rewrite Hr in H. discriminate H.
Qed.

(** What [int] raises is a [ValueError], about the literal or about the
    number of its digits. *)
Lemma py_int_error {X} (v : str) (e : exn X) :
  py_int v = inl e ->
  e = ValueError_invalid_literal v
  \/ exists n, e = ValueError_exceeds_limit n.
Proof.
  unfold py_int. cbv zeta.
  match goal with
  | |- context [let '(a, b) := ?p in _] => destruct p as [negative body]
  end.
  destruct body as [|c r]; [intros H; injection H as <-; auto|].
  destruct (decimal c) as [d|]; [|intros H; injection H as <-; auto].
  destruct (scan_digits r d 1) as [[[v' count] rest]|];
    [|intros H; injection H as <-; auto].
  destruct (Nat.ltb int_max_str_digits count);
    [intros H; injection H as <-; eauto|].
  destruct (negb (forallb int_space rest));
    [intros H; injection H as <-; auto|discriminate].
Qed.

Section More_runs.
Context {R : Runtime}.
Local Open Scope Z_scope.

(** ** The responses *)

Lemma capability_not_failure (t : str) :
  cairosvg_message <> failure_prefix ++ t
  /\ pillow_message <> failure_prefix ++ t.
Proof. split; intros E; discriminate E. Qed.

(** The guarded part of the handler answers with neither capability
    message. *)
Lemma generate_not_capability_message
      (raw : str) (d : Z) (st : state) (m : str) :
  m = cairosvg_message \/ m = pillow_message ->
  fst (generate raw d st) <> inr (plain m 500).
Proof.
  intros Hm. rewrite generate_cases.
  assert (Hcaught : forall e, failure_outcome e <> inr (plain m 500)).
  { intros e Hr. apply failure_outcome_response in Hr.
    injection Hr as Hr.
    destruct (capability_not_failure (str_of_exn e)) as [H1 H2].
    destruct Hm as [->| ->]; [exact (H1 Hr)|exact (H2 Hr)]. }
  destruct (seeds_missing (parse_seeds raw)).
  { simpl. destruct Hm as [->| ->]; discriminate. }
  destruct (render_all (parse_seeds raw) [] st) as [[e|[|first rest]] st1].
  - destruct (is_Exception e); simpl; [apply Hcaught|discriminate].
  - simpl. apply Hcaught.
  - simpl. destruct (Image_save first (gif_kwargs rest d)) as [x|b];
      [destruct (isinstance_Exception x)|]; simpl;
      [apply Hcaught|discriminate|discriminate].
Qed.

(** X1. Whatever the handler returns is one of five responses, each with
    its own circumstances: the animation (200, image/gif) with both
    capabilities; the 400 message with both capabilities and nothing
    called; the cairosvg message without cairosvg and nothing called; the
    Pillow message with cairosvg but without Pillow and nothing called; the
    500 text that starts with the failure prefix and ends with the text of
    a caught [Exception]. Bytes are returned with status 200 only. *)
Theorem response_is_one_of_five
        (caps : capabilities) (req : request) (st st' : state)
        (r : Response) :
  serve_face_gif caps req st = (inr r, st') ->
  ((exists b, r = gif_response b)
   /\ HAS_CAIRO caps = true /\ HAS_PIL caps = true)
  \/ (r = plain seeds_message 400 /\ st' = st
      /\ HAS_CAIRO caps = true /\ HAS_PIL caps = true)
  \/ (r = plain cairosvg_message 500 /\ st' = st /\ HAS_CAIRO caps = false)
  \/ (r = plain pillow_message 500 /\ st' = st
      /\ HAS_CAIRO caps = true /\ HAS_PIL caps = false)
  \/ ((exists e, is_Exception e = true
                 /\ r = plain (failure_prefix ++ str_of_exn e) 500)
      /\ HAS_CAIRO caps = true /\ HAS_PIL caps = true).
Proof.
  rewrite serve_cases.
  destruct (request_duration req) as [e|d]; [discriminate|].
  destruct (HAS_CAIRO caps).
  2:{ intros H; injection H as <- <-. right; right; left. auto. }
  destruct (HAS_PIL caps).
  2:{ intros H; injection H as <- <-. right; right; right; left. auto. }
  simpl. rewrite generate_cases.
  destruct (seeds_missing (parse_seeds (seeds_param req))).
  { intros H; injection H as <- <-. right; left. auto. }
  destruct (render_all (parse_seeds (seeds_param req)) [] st)
    as [[e|[|first rest]] st1].
  - destruct (is_Exception e) eqn:He; [|discriminate].
    destruct (failure_outcome e) as [raised|r0] eqn:Hf; [discriminate|].
    intros H; injection H as <- _. apply failure_outcome_response in Hf.
    do 4 right. eauto.
  - destruct (failure_outcome IndexError) as [raised|r0] eqn:Hf;
      [discriminate|].
    intros H; injection H as <- _. apply failure_outcome_response in Hf.
    do 4 right. split; [exists IndexError|]; auto.
  - simpl. destruct (Image_save first (gif_kwargs rest d)) as [x|b].
    + destruct (isinstance_Exception x) eqn:Hx; [|discriminate].
      destruct (failure_outcome (Foreign x)) as [raised|r0] eqn:Hf;
        [discriminate|].
      intros H; injection H as <- _. apply failure_outcome_response in Hf.
      do 4 right. split; [exists (Foreign x)|]; auto.
    + intros H; injection H as <- _. left. eauto.
Qed.

(** X6. With a duration that parses, the capability messages are exact
    signals: the cairosvg message is the response exactly when cairosvg is
    absent, the Pillow message exactly when cairosvg is present and Pillow
    absent, in both cases with nothing called; no failure inside the
    generation can produce either message. *)
Theorem capability_messages_exact
        (caps : capabilities) (req : request) (d : Z) (st : state) :
  request_duration req = inr d ->
  (HAS_CAIRO caps = false ->
     serve_face_gif caps req st = (inr (plain cairosvg_message 500), st))
  /\ (fst (serve_face_gif caps req st) = inr (plain cairosvg_message 500) ->
      HAS_CAIRO caps = false)
  /\ (HAS_CAIRO caps = true -> HAS_PIL caps = false ->
      serve_face_gif caps req st = (inr (plain pillow_message 500), st))
  /\ (fst (serve_face_gif caps req st) = inr (plain pillow_message 500) ->
      HAS_CAIRO caps = true /\ HAS_PIL caps = false).
Proof.
  intros Hd.
  assert (Hforms : forall m, m = cairosvg_message \/ m = pillow_message ->
            fst (serve_face_gif caps req st) = inr (plain m 500) ->
            (m = cairosvg_message /\ HAS_CAIRO caps = false)
            \/ (m = pillow_message
                /\ HAS_CAIRO caps = true /\ HAS_PIL caps = false)).
  { intros m Hm. rewrite (capability_gate caps req st Hd).
    destruct (HAS_CAIRO caps), (HAS_PIL caps); simpl; intros Hrun.
    - exfalso. exact (generate_not_capability_message _ _ _ Hm Hrun).
    - right. injection Hrun as Hrun. auto.
    - left. injection Hrun as Hrun. auto.
    - left. injection Hrun as Hrun. auto. }
  rewrite (capability_gate caps req st Hd) in *.
  split; [intros ->; reflexivity|].
  split.
  { intros Hrun. destruct (Hforms _ (or_introl eq_refl) Hrun)
      as [[_ H]|[H _]]; [exact H|discriminate H]. }
  split; [intros -> ->; reflexivity|].
  intros Hrun. destruct (Hforms _ (or_intror eq_refl) Hrun)
    as [[H _]|[_ H]]; [discriminate H|exact H].
Qed.

(** ** What leaves the handler *)

(** X7. An exception leaves the handler in three cases only. The
    [ValueError] that [int] raises on the [duration] parameter, before
    anything is called. Or, with both capabilities present and a duration
    that parses: something raised in the guarded part that is no
    [Exception], which the [except] clause does not catch; or something
    the [except] clause raises itself on a caught [Exception], namely what
    [str] raises on it, or the [UnicodeEncodeError] of a message whose
    text holds a surrogate. *)
Theorem raised_by_duration_no_exception_or_handler
        (caps : capabilities) (req : request) (st st' : state)
        (e : exn Raised) :
  serve_face_gif caps req st = (inl e, st') ->
  (st' = st
   /\ exists v, args_get (lit "duration") (args req) = Some v
                /\ py_int v = inl e
                /\ (e = ValueError_invalid_literal v
                    \/ exists n, e = ValueError_exceeds_limit n))
  \/ (exists d,
         request_duration req = inr d
         /\ HAS_CAIRO caps = true /\ HAS_PIL caps = true
         /\ ((exists x, e = Foreign x /\ isinstance_Exception x = false)
             \/ (exists caught,
                    is_Exception caught = true
                    /\ ((exists x, str_exn caught = inl x /\ e = Foreign x)
                        \/ (exists text start stop,
                               str_exn caught = inr text
                               /\ existsb is_surrogate text = true
                               /\ e = UnicodeEncodeError
                                        (failure_prefix ++ text)
                                        start stop))))).
Proof.
  intros Hrun. pose proof Hrun as Hrun'. rewrite serve_cases in Hrun'.
  destruct (request_duration req) as [e'|d] eqn:Hd.
  - injection Hrun' as <- <-. left. split; [reflexivity|].
    unfold request_duration in Hd.
    destruct (args_get (lit "duration") (args req)) as [v|]; [|discriminate].
    exists v. split; [reflexivity|]. split; [exact Hd|].
    exact (py_int_error _ Hd).
  - destruct (HAS_CAIRO caps); [|discriminate].
    destruct (HAS_PIL caps); [|discriminate]. simpl in Hrun'.
    right. exists d. repeat (split; [reflexivity|]).
    destruct (generate_catches _ _ _ Hrun') as [He|[caught [Hc Hout]]].
    + left. destruct e as [| | | |x]; try discriminate He.
      exists x. auto.
    + right. exists caught. split; [exact Hc|].
      unfold failure_outcome in Hout.
      destruct (str_exn caught) as [x|text].
      * left. exists x. injection Hout as <-. auto.
      * right.
        destruct (encode_utf8 (failure_prefix ++ text)) as [raised|bs] eqn:Henc;
          [|discriminate Hout].
        injection Hout as ->.
        destruct (encode_utf8_error _ Henc) as [Hs [start [stop ->]]].
        exists text, start, stop. split; [reflexivity|].
        split; [|reflexivity].
        rewrite existsb_app in Hs. exact Hs.
Qed.

(** ** Rejection *)

(** X2. With both capabilities and a duration that parses, a request is
    answered 400 exactly when its [seeds] value has nothing but whitespace
    before its first comma (whatever follows the comma); the response is
    then the fixed message and nothing is called. *)
Theorem rejected_iff_blank_before_comma
        (caps : capabilities) (req : request) (d : Z) (st : state) :
  HAS_CAIRO caps = true ->
  HAS_PIL caps = true ->
  request_duration req = inr d ->
  (forallb isspace (until_comma (seeds_param req)) = true ->
     serve_face_gif caps req st = (inr (plain seeds_message 400), st))
  /\ (forall r, fst (serve_face_gif caps req st) = inr r ->
                status r = 400 ->
                forallb isspace (until_comma (seeds_param req)) = true).
Proof.
  intros Hcairo Hpil Hd.
  rewrite (capability_gate caps req st Hd), Hcairo, Hpil. simpl.
  rewrite generate_cases.
  pose proof (seeds_missing_iff (seeds_param req)) as [Hblank Hmiss].
  destruct (seeds_missing (parse_seeds (seeds_param req))).
  - split; [intros _; reflexivity|]. intros _ _ _. exact (Hblank eq_refl).
  - split; [intros H; discriminate (Hmiss H)|]. intros r Hr Hst. exfalso.
    destruct (render_all (parse_seeds (seeds_param req)) [] st)
      as [[e|[|first rest]] st1]; simpl in Hr.
    + destruct (is_Exception e); [|discriminate].
      apply failure_outcome_response in Hr. subst r. discriminate Hst.
    + apply failure_outcome_response in Hr. subst r. discriminate Hst.
    + destruct (Image_save first (gif_kwargs rest d)) as [x|b];
        [destruct (isinstance_Exception x); [|discriminate]|]; simpl in Hr.
      * apply failure_outcome_response in Hr. subst r. discriminate Hst.
      * injection Hr as <-. discriminate Hst.
Qed.

(** ** The number of frames *)


(** ** The default duration *)

(** X9. A request without [duration] is served exactly as the same request
    with [duration=1000] added: same outcome, same calls. *)
Theorem default_duration_is_1000
        (caps : capabilities) (req : request) (st : state) :
  args_get (lit "duration") (args req) = None ->
  serve_face_gif caps req st
  = serve_face_gif caps
      {| args := args req ++ [(lit "duration", lit "1000")] |} st.
Proof.
  intros Hnone. rewrite !serve_cases.
  unfold request_duration, seeds_param. simpl.
  rewrite !args_get_app, Hnone.
  change (args_get (lit "duration") [(lit "duration", lit "1000")])
    with (Some (lit "1000")).
  change (args_get (lit "seeds") [(lit "duration", lit "1000")])
    with (@None str).
  change (py_int (X:=Raised) (lit "1000")) with (@inr (exn Raised) Z 1000).
  destruct (args_get (lit "seeds") (args req)); reflexivity.
Qed.

(** ** The order of the calls *)

Lemma render_shape (seed : str) (st : state) :
  (exists svg_content w1 bytestring png img st1,
      generate_svg seed (world st) = (inr svg_content, w1)
      /\ encode_utf8 (X := Raised) svg_content = inr bytestring
      /\ svg2png bytestring 400 480 = inr png
      /\ Image_open png = inr img
      /\ render seed st = (inr img, st1)
      /\ world st1 = w1
      /\ calls st1 = calls st ++ group (seed, bytestring, png))
  \/ (exists p e st1,
         cut_short (world st) seed p e
         /\ render seed st = (inl e, st1)
         /\ calls st1 = calls st ++ p).
Proof.
  unfold render, bind, lift, do_generate_svg, do_svg2png, do_Image_open, log.
  destruct (generate_svg seed (world st)) as [[x|svg] w] eqn:Hgen; simpl.
  { right. eexists _, _, _. split; [eapply synthesizer_raised; eauto|].
    split; reflexivity. }
  destruct (encode_utf8 svg) as [e|bs] eqn:Henc; simpl.
  { right. eexists _, _, _. split; [eapply drawing_refused; eauto|].
    split; reflexivity. }
  destruct (svg2png bs 400 480) as [x|png] eqn:Hpng; simpl.
  { right. eexists _, _, _. split; [eapply rasterizer_raised; eauto|].
    split; [reflexivity|]. simpl. rewrite <- app_assoc. reflexivity. }
  destruct (Image_open png) as [x|img] eqn:Hopen; simpl.
  { right. eexists _, _, _. split; [eapply open_raised; eauto|].
    split; [reflexivity|]. simpl. rewrite <- !app_assoc. reflexivity. }
  left. exists svg, w, bs, png, img. eexists.
  repeat (split; [first [reflexivity|assumption]|]). simpl. rewrite <- !app_assoc. reflexivity.
Qed.

(** The loop makes full groups, one per seed in turn, each on the data of
    the one before, until a seed stops short or the seeds are done. *)
Lemma render_all_shape (seeds : list str) :
  forall frames st,
    (exists gs new st1,
        map group_seed gs = seeds
        /\ chain (world st) gs new (world st1)
        /\ render_all seeds frames st = (inr (frames ++ new), st1)
        /\ calls st1 = calls st ++ flat_map group gs)
    \/ (exists gs new w seed tail p e st1,
           seeds = map group_seed gs ++ seed :: tail
           /\ chain (world st) gs new w
           /\ cut_short w seed p e
           /\ render_all seeds frames st = (inl e, st1)
           /\ calls st1 = calls st ++ flat_map group gs ++ p).
Proof.
  induction seeds as [|seed rest IH]; intros frames st.
  - left. exists [], [], st. simpl. rewrite !app_nil_r.
    repeat split; reflexivity.
  - rewrite render_all_step.
    destruct (render_shape seed st)
      as [[svg [w1 [bs [png [img [st1 [Hgen [Henc [Hpng [Hopen
            [-> [Hw Hc]]]]]]]]]]]]
         |[p [e [st1 [Hcut [-> Hc]]]]]].
    + assert (Hhead : forall gs new w',
                 chain (world st1) gs new w' ->
                 chain (world st) ((seed, bs, png) :: gs) (img :: new) w').
      { intros gs new w' Hchain. simpl. exists svg, w1.
        subst w1. auto. }
      destruct (IH (frames ++ [img]) st1)
        as [[gs [new [st2 [Hseeds [Hchain [Hrun Hc2]]]]]]
           |[gs [new [w [s [tail [p [e [st2
               [Hseeds [Hchain [Hcut [Hrun Hc2]]]]]]]]]]]]].
      * left. exists ((seed, bs, png) :: gs), (img :: new), st2.
        split; [simpl; rewrite Hseeds; reflexivity|].
        split; [exact (Hhead _ _ _ Hchain)|].
        split; [rewrite Hrun, <- app_assoc; reflexivity|].
        rewrite Hc2, Hc. cbn [flat_map]. rewrite <- app_assoc. reflexivity.
      * right. exists ((seed, bs, png) :: gs), (img :: new), w, s, tail, p, e,
                 st2.
        split; [simpl; rewrite Hseeds; reflexivity|].
        split; [exact (Hhead _ _ _ Hchain)|].
        split; [exact Hcut|]. split; [exact Hrun|].
        rewrite Hc2, Hc. cbn [flat_map]. rewrite <- !app_assoc. reflexivity.
    + right. exists [], [], (world st), seed, rest, p, e, st1.
      simpl. auto.
Qed.

(** X4. The calls of a run follow one protocol, on data that hang
    together. Either nothing is called and the state is left as it was
    (the duration does not parse, a capability is absent or the seeds are
    rejected). Or the calls are full groups (synthesizer, rasterizer at
    400x480 on the encoded drawing, [Image.open] on the picture) for the
    first normalized seeds in order, each begun in the process state the
    one before left, followed by the calls of the next seed cut short by
    what it raised, and nothing more; the outcome is then that of the
    raised exception. Or the calls are full groups for all the normalized
    seeds in order, followed by a single [Image.save] call on the frames of
    the groups, the first frame as receiver and the others appended, with
    format GIF, [save_all], the parsed duration, loop count 0 and
    [optimize]; the outcome is then that of this call. The encoder is thus
    never called before every seed has its frame, nor twice. *)
Theorem calls_follow_protocol
        (caps : capabilities) (req : request) (st : state) :
  (snd (serve_face_gif caps req st) = st
   /\ ((exists e, request_duration req = inl e)
       \/ HAS_CAIRO caps = false
       \/ HAS_PIL caps = false
       \/ seeds_missing (parse_seeds (seeds_param req)) = true))
  \/ (exists gs frames w seed tail p e,
         parse_seeds (seeds_param req) = map group_seed gs ++ seed :: tail
         /\ chain (world st) gs frames w
         /\ cut_short w seed p e
         /\ calls (snd (serve_face_gif caps req st))
            = calls st ++ flat_map group gs ++ p
         /\ fst (serve_face_gif caps req st)
            = if is_Exception e then failure_outcome e else inl e)
  \/ (exists gs first rest d,
         map group_seed gs = parse_seeds (seeds_param req)
         /\ chain (world st) gs (first :: rest)
                  (world (snd (serve_face_gif caps req st)))
         /\ request_duration req = inr d
         /\ calls (snd (serve_face_gif caps req st))
            = calls st ++ flat_map group gs
                ++ [Call_save first
                      {| format := lit "GIF"; save_all := true;
                         append_images := rest; duration := d; loop := 0;
                         optimize := true |}]
         /\ fst (serve_face_gif caps req st)
            = match Image_save first
                      {| format := lit "GIF"; save_all := true;
                         append_images := rest; duration := d; loop := 0;
                         optimize := true |} with
              | inr b => inr (gif_response b)
              | inl x => if isinstance_Exception x
                         then failure_outcome (Foreign x)
                         else inl (Foreign x)
              end).
Proof.
  rewrite serve_cases.
  destruct (request_duration req) as [e|d] eqn:Hd; [left; eauto|].
  destruct (HAS_CAIRO caps); [|left; auto].
  destruct (HAS_PIL caps); [|left; auto]. simpl.
  rewrite generate_cases.
  destruct (seeds_missing (parse_seeds (seeds_param req))) eqn:Hmiss;
    [left; auto|].
  right.
  destruct (render_all_shape (parse_seeds (seeds_param req)) [] st)
    as [[gs [new [st1 [Hseeds [Hchain [Hrun Hc]]]]]]
       |[gs [new [w [s [tail [p [e [st1
            [Hseeds [Hchain [Hcut [Hrun Hc]]]]]]]]]]]]]; rewrite Hrun.
  - right. simpl app. destruct new as [|first rest].
    { exfalso. destruct gs as [|g gs]; [|destruct g as [[? ?] ?]; exact Hchain].
      simpl in Hseeds. rewrite <- Hseeds in Hmiss. discriminate Hmiss. }
    exists gs, first, rest, d.
    split; [exact Hseeds|].
    unfold gif_kwargs.
    destruct (Image_save first _) as [x|b];
      [destruct (isinstance_Exception x)|]; simpl;
      rewrite Hc, <- app_assoc; auto.
  - left. exists gs, new, w, s, tail, p, e.
    split; [exact Hseeds|]. split; [exact Hchain|]. split; [exact Hcut|].
    destruct (is_Exception e); simpl; auto.
Qed.

(** ** The first failure *)



(** ** Drawings that cannot be encoded *)

(** X8. When the synthesizer returns a drawing: if the drawing holds a
    surrogate code point, its UTF-8 encoding raises [UnicodeEncodeError] at
    the first one and the rasterizer is not called for that seed; if it
    holds none, the rasterizer is called at 400x480 on its encoding, which
    has between one and four octets for each code point. *)
Theorem drawing_encoded_or_refused
        (seed : str) (st : state) (svg_content : str) (w : World) :
  generate_svg seed (world st) = (inr svg_content, w) ->
  if existsb is_surrogate svg_content
  then exists start stop,
      fst (render seed st) = inl (UnicodeEncodeError svg_content start stop)
      /\ (start < stop <= List.length svg_content)%nat
      /\ is_surrogate (nth start svg_content 0%N) = true
      /\ existsb is_surrogate (firstn start svg_content) = false
      /\ calls (snd (render seed st)) = calls st ++ [Call_generate_svg seed]
  else exists bytestring tail,
      encode_utf8 (X := Raised) svg_content = inr bytestring
      /\ (List.length svg_content <= List.length bytestring
          <= 4 * List.length svg_content)%nat
      /\ calls (snd (render seed st))
         = calls st ++ Call_generate_svg seed
             :: Call_svg2png bytestring 400 480 :: tail.
Proof.
  intros Hgen.
  unfold render, bind, lift, do_generate_svg, do_svg2png, do_Image_open, log.
  rewrite Hgen. simpl. unfold encode_utf8.
  destruct (existsb is_surrogate svg_content) eqn:Hs.
  - destruct (utf8_from_refuses (X := Raised) svg_content svg_content Hs 0)
      as [start [stop [-> [Hpos [Hnth Hfirst]]]]].
    rewrite Nat.sub_0_r in Hnth, Hfirst.
    exists start, stop. simpl. repeat split; auto; lia.
  - destruct (utf8_from_encodes (X := Raised) svg_content svg_content Hs 0)
      as [bs [-> Hlen]].
    simpl. destruct (svg2png bs 400 480) as [x|png]; simpl.
    + exists bs, []. rewrite <- app_assoc. auto.
    + exists bs, [Call_Image_open png]. rewrite <- !app_assoc. auto.
Qed.

End More_runs.

(** * The entry point *)

(** ** Digits *)

Lemma decimal_in_bound (runs : list codepoint) (c : codepoint) (d : N) :
  decimal_in runs c = Some d -> d < 10.
Proof.
  induction runs as [|r rs IH]; simpl; [discriminate|].
  destruct ((r <=? c) && (c <? r + 10)) eqn:E; [|exact IH].
  apply andb_true_iff in E. destruct E as [E1 E2].
  apply N.leb_le in E1. apply N.ltb_lt in E2.
  intros H; injection H as <-. lia.
Qed.

Lemma decimal_ascii (c : codepoint) :
  ascii_digit c -> decimal c = Some (c - 0x30).
Proof.
  intros [Hlo Hhi]. unfold decimal, decimal_runs. cbn [decimal_in].
  destruct (N.leb_spec 0x30 c); [|lia].
  destruct (N.ltb_spec c (0x30 + 10)); [reflexivity|lia].
Qed.

Lemma pow10_succ (k : nat) : 10 ^ N.of_nat (S k) = 10 * 10 ^ N.of_nat k.
Proof. rewrite Nat2N.inj_succ. apply N.pow_succ_r'. Qed.

(** Reading digits keeps the value below the power of ten of their
    number. *)
Lemma scan_digits_bound (s : str) :
  forall acc count v count' rest,
    scan_digits s acc count = Some (v, count', rest) ->
    acc < 10 ^ N.of_nat count ->
    v < 10 ^ N.of_nat count' /\ (count <= count')%nat.
Proof.
  assert (Hstep : forall acc d count,
             acc < 10 ^ N.of_nat count -> d < 10 ->
             10 * acc + d < 10 ^ N.of_nat (S count)).
  { intros acc d count Hacc Hd. rewrite pow10_succ. lia. }
  induction s as [s IH] using (induction_ltof1 _ (@List.length codepoint)).
  unfold ltof in IH.
  intros acc count v count' rest Hscan Hacc.
  destruct s as [|c r]; simpl in Hscan.
  - injection Hscan as <- <- _. split; [exact Hacc|lia].
  - destruct (decimal c) as [d|] eqn:Hd.
    + apply decimal_in_bound in Hd.
      destruct (IH r (Nat.lt_succ_diag_r _) _ _ _ _ _ Hscan
                  (Hstep _ _ _ Hacc Hd)) as [Hv Hc].
      split; [exact Hv|lia].
    + destruct (c =? underscore).
      * destruct r as [|c' r']; [discriminate|].
        destruct (decimal c') as [d|] eqn:Hd'; [|discriminate].
        apply decimal_in_bound in Hd'.
        assert (Hlt : (List.length r' < List.length (c :: c' :: r'))%nat)
          by (simpl; lia).
        destruct (IH r' Hlt _ _ _ _ _ Hscan (Hstep _ _ _ Hacc Hd'))
          as [Hv Hc].
        split; [exact Hv|lia].
      * injection Hscan as <- <- _. split; [exact Hacc|lia].
Qed.

(** What [int] returns has at most [int_max_str_digits] decimal digits. *)
Lemma py_int_bound {X} (s : str) (z : Z) :
  py_int (X := X) s = inr z ->
  exists k, (1 <= k <= int_max_str_digits)%nat
            /\ Z.abs_N z < 10 ^ N.of_nat k.
Proof.
  unfold py_int. cbv zeta.
  match goal with
  | |- context [let '(a, b) := ?p in _] => destruct p as [negative body]
  end.
  destruct body as [|c r]; [discriminate|].
  destruct (decimal c) as [d|] eqn:Hd; [|discriminate].
  destruct (scan_digits r d 1) as [[[v count] rest]|] eqn:Hscan;
    [|discriminate].
  destruct (Nat.ltb_spec int_max_str_digits count) as [|Hle]; [discriminate|].
  destruct (negb (forallb int_space rest)); [discriminate|].
  intros H; injection H as <-.
  apply decimal_in_bound in Hd.
  assert (Hd1 : d < 10 ^ N.of_nat 1) by (change (10 ^ N.of_nat 1) with 10; lia).
  destruct (@scan_digits_bound r d 1%nat v count rest Hscan Hd1) as [Hv Hc].
  exists count. split; [lia|].
  destruct negative; [rewrite Zabs2N.inj_opp|]; rewrite Zabs2N.id; exact Hv.
Qed.

Lemma digits_fuel_step (fuel : nat) (n : N) :
  digits_fuel (S fuel) n
  = if n <? 10 then [0x30 + n]
    else digits_fuel fuel (n / 10) ++ [0x30 + n mod 10].
Proof. reflexivity. Qed.

(** A number below [10 ^ k] has at most [k] digits. *)
Lemma digits_fuel_length (fuel : nat) :
  forall n k,
    (1 <= k)%nat -> n < 10 ^ N.of_nat k ->
    (List.length (digits_fuel fuel n) <= k)%nat.
Proof.
  induction fuel as [|fuel IH]; intros n k Hk Hn; [simpl; lia|].
  rewrite digits_fuel_step.
  destruct (N.ltb_spec n 10) as [|Hge]; [simpl; lia|].
  rewrite length_app. simpl.
  destruct k as [|k]; [lia|].
  rewrite pow10_succ in Hn.
  destruct k as [|k]; [change (10 ^ N.of_nat 0) with 1 in Hn; lia|].
  assert (Hdiv : n / 10 < 10 ^ N.of_nat (S k))
    by (apply N.Div0.div_lt_upper_bound; exact Hn).
  pose proof (IH (n / 10) (S k) ltac:(lia) Hdiv). lia.
Qed.

Lemma decimal_value_app (l : str) (c : codepoint) (acc : N) :
  decimal_value (l ++ [c]) acc = 10 * decimal_value l acc + (c - 0x30).
Proof. unfold decimal_value. rewrite fold_left_app. reflexivity. Qed.

(** With enough fuel the digits are ASCII digits, at least one, and denote
    the number. *)
Lemma digits_fuel_spec (fuel : nat) :
  forall n,
    n < 2 ^ N.of_nat fuel ->
    Forall ascii_digit (digits_fuel (S fuel) n)
    /\ digits_fuel (S fuel) n <> []
    /\ decimal_value (digits_fuel (S fuel) n) 0 = n.
Proof.
  induction fuel as [|fuel IH]; intros n Hn; rewrite digits_fuel_step.
  - change (2 ^ N.of_nat 0) with 1 in Hn.
    assert (n = 0) by lia. subst n. simpl.
    split; [constructor; [unfold ascii_digit; lia|constructor]|].
    split; [discriminate|reflexivity].
  - destruct (N.ltb_spec n 10) as [Hlt|Hge].
    + split; [constructor; [unfold ascii_digit; lia|constructor]|].
      split; [discriminate|]. unfold decimal_value. cbn [fold_left]. lia.
    + assert (Hpow : 2 ^ N.of_nat (S fuel) = 2 * 2 ^ N.of_nat fuel)
        by (rewrite Nat2N.inj_succ; apply N.pow_succ_r').
      assert (Hdiv : n / 10 < 2 ^ N.of_nat fuel)
        by (apply N.Div0.div_lt_upper_bound; lia).
      destruct (IH _ Hdiv) as [Hall [Hne Hval]].
      pose proof (N.mod_upper_bound n 10 ltac:(discriminate)) as Hmod.
      pose proof (N.div_mod n 10 ltac:(discriminate)) as Hdm.
      set (m := n mod 10) in *. set (q := n / 10) in *.
      split.
      { apply Forall_app. split; [exact Hall|].
        constructor; [unfold ascii_digit; lia|constructor]. }
      split.
      { intros E. apply app_eq_nil in E. destruct E as [_ E].
        discriminate E. }
      rewrite decimal_value_app, Hval. lia.
Qed.

Lemma digits_spec (n : N) :
  Forall ascii_digit (digits n)
  /\ digits n <> []
  /\ decimal_value (digits n) 0 = n.
Proof.
  unfold digits. apply digits_fuel_spec.
  rewrite N2Nat.id. apply N.size_gt.
Qed.

(** [int] reads a string of ASCII digits as the number it denotes. *)
Lemma scan_ascii_digits (ds : str) :
  Forall ascii_digit ds ->
  forall acc count,
    scan_digits ds acc count
    = Some (decimal_value ds acc, (count + List.length ds)%nat, []).
Proof.
  induction 1 as [|c r Hc Hr IH]; intros acc count; simpl.
  - rewrite Nat.add_0_r. reflexivity.
  - rewrite (decimal_ascii Hc), IH. unfold decimal_value. simpl.
    repeat f_equal. lia.
Qed.

Lemma ascii_digit_cases (c : codepoint) :
  ascii_digit c ->
  c = 0x30 \/ c = 0x31 \/ c = 0x32 \/ c = 0x33 \/ c = 0x34
  \/ c = 0x35 \/ c = 0x36 \/ c = 0x37 \/ c = 0x38 \/ c = 0x39.
Proof. unfold ascii_digit. lia. Qed.

(** [int] on a plain decimal numeral, with or without a minus sign. *)
Lemma py_int_digits {X} (ds : str) :
  Forall ascii_digit ds -> ds <> [] ->
  (List.length ds <= int_max_str_digits)%nat ->
  py_int (X := X) ds = inr (Z.of_N (decimal_value ds 0))
  /\ py_int (X := X) (0x2d :: ds)
     = inr (Z.opp (Z.of_N (decimal_value ds 0))).
Proof.
  intros Hall Hne Hlen.
  destruct ds as [|c r]; [contradiction|].
  inversion Hall as [|? ? Hc Hr]; subst.
  assert (Hscan : forall d,
             scan_digits r d 1
             = Some (decimal_value r d, S (List.length r), []))
    by (intros d; apply (scan_ascii_digits Hr)).
  assert (Hlimit : Nat.ltb int_max_str_digits (S (List.length r)) = false)
    by (apply Nat.ltb_ge; exact Hlen).
  split.
  - destruct (ascii_digit_cases Hc)
      as [->|[->|[->|[->|[->|[->|[->|[->|[->| ->]]]]]]]]];
      unfold py_int; cbn [lstrip_int];
      match goal with
      | |- context [int_space ?c] =>
          change (int_space c) with false; cbv iota
      end;
      match goal with
      | |- context [decimal ?c] =>
          let d := eval vm_compute in (decimal c) in
          change (decimal c) with d; cbv iota
      end;
      rewrite Hscan, Hlimit; reflexivity.
  - unfold py_int. cbn [lstrip_int].
    change (int_space 0x2d) with false. cbv iota.
    rewrite (decimal_ascii Hc), Hscan, Hlimit. reflexivity.
Qed.

(** What [int] returned, [str] prints without raising, as a numeral that
    [int] reads back as the same number. *)
Lemma str_of_parsed_int {X} (s : str) (z : Z) :
  py_int (X := X) s = inr z ->
  exists text,
    py_str_int (X := X) z = inr text
    /\ py_int (X := X) text = inr z.
Proof.
  intros Hint.
  destruct (py_int_bound _ Hint) as [k [[Hk1 Hk2] Hz]].
  destruct (digits_spec (Z.abs_N z)) as [Hall [Hne Hval]].
  assert (Hlen : (List.length (digits (Z.abs_N z)) <= int_max_str_digits)%nat).
  { unfold digits.
    pose proof (@digits_fuel_length (S (N.to_nat (N.size (Z.abs_N z))))
                  (Z.abs_N z) k Hk1 Hz). lia. }
  destruct (py_int_digits (X := X) Hall Hne Hlen) as [Hpos Hneg].
  unfold py_str_int. cbv zeta.
  rewrite (proj2 (Nat.ltb_ge _ _) Hlen).
  destruct (Z.ltb_spec z 0) as [Hz0|Hz0].
  - eexists. split; [reflexivity|]. rewrite Hneg, Hval. f_equal. lia.
  - eexists. split; [reflexivity|]. rewrite Hpos, Hval. f_equal. lia.
Qed.

(** ** The port *)

Section Entry.
Context {H : Host}.

(** X10. The entry point starts the server on the port that [PORT] parses
    to, 5000 when [PORT] is not set, on host 0.0.0.0 with [debug] off, and
    only after both banners were printed. A [PORT] that does not parse
    raises [ValueError] before anything is printed. Once [PORT] is parsed,
    printing the port cannot fail on the size of the number, and the
    numeral printed reads back as the port. *)
Theorem main_serves_parsed_port (environ : str -> option str) :
  (forall e,
      environ_port (X := Fault) environ = inl e ->
      main environ = (inl e, [])
      /\ exists v,
          environ (lit "PORT") = Some v
          /\ (e = ValueError_invalid_literal v
              \/ exists n, e = ValueError_exceeds_limit n))
  /\ (forall port,
        environ_port (X := Fault) environ = inr port ->
        (environ (lit "PORT") = None -> port = 5000%Z)
        /\ exists text,
            py_str_int (X := Fault) port = inr text
            /\ py_int (X := Fault) text = inr port
            /\ ((exists x,
                    print starting_banner = inl x
                    /\ main environ
                       = (inl (Foreign x), [Call_print starting_banner]))
                \/ (exists x,
                       print (port_banner ++ text) = inl x
                       /\ main environ
                          = (inl (Foreign x),
                             [Call_print starting_banner;
                              Call_print (port_banner ++ text)]))
                \/ main environ
                   = (match app_run (lit "0.0.0.0") port false with
                      | inl x => inl (Foreign x)
                      | inr u => inr u
                      end,
                      [Call_print starting_banner;
                       Call_print (port_banner ++ text);
                       Call_app_run (lit "0.0.0.0") port false]))).
Proof.
  split.
  - intros e He. unfold main. rewrite He. split; [reflexivity|].
    unfold environ_port in He.
    destruct (environ (lit "PORT")) as [v|]; [|discriminate].
    exists v. split; [reflexivity|]. exact (py_int_error _ He).
  - intros port Hport.
    assert (Hparsed : exists s, py_int (X := Fault) s = inr port).
    { unfold environ_port in Hport.
      destruct (environ (lit "PORT")) as [v|]; [exists v; exact Hport|].
      injection Hport as <-. exists (lit "5000"). reflexivity. }
    split.
    { intros Hnone. unfold environ_port in Hport. rewrite Hnone in Hport.
      injection Hport as <-. reflexivity. }
    destruct Hparsed as [s Hs].
    destruct (str_of_parsed_int _ Hs) as [text [Hstr Hback]].
    exists text. split; [exact Hstr|]. split; [exact Hback|].
    unfold main. rewrite Hport.
    destruct (print starting_banner) as [x|u1]; [left; eauto|].
    rewrite Hstr. cbv zeta.
    destruct (print (port_banner ++ text)) as [x|u2]; [right; left; eauto|].
    right; right. reflexivity.
Qed.

End Entry.

(** ** The further properties at work on the sample runtime *)

Lemma response_is_one_of_five_witness :
  Demo.run Demo.both Demo.abc 0 = Demo.abc_end
  /\ exists b, Demo.response_of Demo.abc_end = gif_response b.
Proof.
  split; [reflexivity|].
  destruct (@response_is_one_of_five
              Demo.runtime Demo.both Demo.abc (Demo.fresh 0)
              (snd Demo.abc_end) (Demo.response_of Demo.abc_end) eq_refl)
    as [[Hb _]|[[Hr _]|[[Hr _]|[[Hr _]|[[e [_ Hr]] _]]]]];
    [exact Hb|vm_compute in Hr; discriminate Hr ..].
Defined.

Lemma capability_messages_exact_witness :
  request_duration (R := Demo.runtime) Demo.abc = inr 1000%Z
  /\ Demo.run {| HAS_CAIRO := false; HAS_PIL := false |} Demo.abc 0
     = (inr (plain cairosvg_message 500), Demo.fresh 0)
  /\ Demo.run {| HAS_CAIRO := true; HAS_PIL := false |} Demo.abc 0
     = (inr (plain pillow_message 500), Demo.fresh 0).
Proof.
  split; [reflexivity|]. split.
  - exact (proj1 (@capability_messages_exact
                    Demo.runtime {| HAS_CAIRO := false; HAS_PIL := false |}
                    Demo.abc 1000 (Demo.fresh 0) eq_refl) eq_refl).
  - exact (proj1 (proj2 (proj2 (@capability_messages_exact
                    Demo.runtime {| HAS_CAIRO := true; HAS_PIL := false |}
                    Demo.abc 1000 (Demo.fresh 0) eq_refl))) eq_refl eq_refl).
Defined.

Lemma raised_by_duration_no_exception_or_handler_witness :
  (Demo.run Demo.both Samples.unparsed 0
   = (inl (ValueError_invalid_literal (lit "soon")), Demo.fresh 0)
   /\ ((Demo.fresh 0 = Demo.fresh 0
        /\ exists v,
            args_get (lit "duration") (args Samples.unparsed) = Some v
            /\ py_int v = inl (ValueError_invalid_literal (X := unit)
                                 (lit "soon"))
            /\ (ValueError_invalid_literal (X := unit) (lit "soon")
                = ValueError_invalid_literal v
                \/ exists n,
                    ValueError_invalid_literal (X := unit) (lit "soon")
                    = ValueError_exceeds_limit n))
       \/ (exists d,
              request_duration (R := Demo.runtime) Samples.unparsed = inr d
              /\ HAS_CAIRO Demo.both = true /\ HAS_PIL Demo.both = true
              /\ ((exists x : unit,
                      ValueError_invalid_literal (lit "soon") = Foreign x
                      /\ true = false)
                  \/ (exists caught : exn unit,
                         is_Exception (R := Demo.runtime) caught = true
                         /\ ((exists x : unit,
                                 inr (lit "error") = inl x
                                 /\ ValueError_invalid_literal (lit "soon")
                                    = Foreign x)
                             \/ (exists text start stop,
                                    inr (B := str) (lit "error")
                                    = inr (A := unit) text
                                    /\ existsb is_surrogate text = true
                                    /\ ValueError_invalid_literal
                                         (X := unit) (lit "soon")
                                       = UnicodeEncodeError
                                           (failure_prefix ++ text)
                                           start stop)))))))
  /\ (Echo.run Demo.both Echo.surrogate = Echo.surrogate_end
      /\ fst Echo.surrogate_end
         = inl (UnicodeEncodeError (failure_prefix ++ Samples.lone) 22 23)
      /\ fst Echo.plain_seed_end
         = inr (plain (failure_prefix ++ lit "a") 500)
      /\ ((snd Echo.surrogate_end = Echo.fresh
           /\ exists v,
               args_get (lit "duration") (args Echo.surrogate) = Some v
               /\ py_int v
                  = inl (UnicodeEncodeError (X := str)
                           (failure_prefix ++ Samples.lone) 22 23)
               /\ (UnicodeEncodeError (X := str)
                     (failure_prefix ++ Samples.lone) 22 23
                   = ValueError_invalid_literal v
                   \/ exists n,
                       UnicodeEncodeError (X := str)
                         (failure_prefix ++ Samples.lone) 22 23
                       = ValueError_exceeds_limit n))
          \/ (exists d,
                 request_duration (R := Echo.runtime) Echo.surrogate = inr d
                 /\ HAS_CAIRO Demo.both = true /\ HAS_PIL Demo.both = true
                 /\ ((exists x : str,
                         UnicodeEncodeError
                           (failure_prefix ++ Samples.lone) 22 23
                         = Foreign x
                         /\ true = false)
                     \/ (exists caught : exn str,
                            is_Exception (R := Echo.runtime) caught = true
                            /\ ((exists x : str,
                                    Echo.str_exn caught = inl x
                                    /\ UnicodeEncodeError
                                         (failure_prefix ++ Samples.lone)
                                         22 23
                                       = Foreign x)
                                \/ (exists text start stop,
                                       Echo.str_exn caught = inr text
                                       /\ existsb is_surrogate text = true
                                       /\ UnicodeEncodeError (X := str)
                                            (failure_prefix ++ Samples.lone)
                                            22 23
                                          = UnicodeEncodeError
                                              (failure_prefix ++ text)
                                              start stop))))))).
Proof.
  split.
  - split; [reflexivity|].
    exact (@raised_by_duration_no_exception_or_handler
             Demo.runtime Demo.both Samples.unparsed (Demo.fresh 0)
             (Demo.fresh 0) (ValueError_invalid_literal (lit "soon"))
             eq_refl).
  - split; [reflexivity|]. split; [reflexivity|]. split; [reflexivity|].
    exact (@raised_by_duration_no_exception_or_handler
             Echo.runtime Demo.both Echo.surrogate Echo.fresh
             (snd Echo.surrogate_end)
             (UnicodeEncodeError (failure_prefix ++ Samples.lone) 22 23)
             eq_refl).
Defined.

Lemma rejected_iff_blank_before_comma_witness :
  forallb isspace (until_comma (lit "  ,a")) = true
  /\ Demo.run Demo.both (query [("seeds", "  ,a")]%string) 0
     = (inr (plain seeds_message 400), Demo.fresh 0).
Proof.
  split; [reflexivity|].
  exact (proj1 (@rejected_iff_blank_before_comma
                  Demo.runtime Demo.both (query [("seeds", "  ,a")]%string)
                  1000 (Demo.fresh 0) eq_refl eq_refl eq_refl) eq_refl).
Defined.


Lemma default_duration_is_1000_witness :
  args_get (lit "duration") (args Demo.abc) = None
  /\ Demo.run Demo.both Demo.abc 0
     = Demo.run Demo.both
         {| args := args Demo.abc ++ [(lit "duration", lit "1000")] |} 0.
Proof.
  split; [reflexivity|].
  exact (@default_duration_is_1000
           Demo.runtime Demo.both Demo.abc (Demo.fresh 0) eq_refl).
Defined.


Lemma drawing_encoded_or_refused_witness :
  (exists start stop,
      fst (render (R := Demo.runtime) Samples.lone (Demo.fresh 0))
      = inl (UnicodeEncodeError Samples.torn start stop)
      /\ (start < stop <= List.length Samples.torn)%nat
      /\ is_surrogate (nth start Samples.torn 0) = true
      /\ existsb is_surrogate (firstn start Samples.torn) = false
      /\ calls (snd (render (R := Demo.runtime) Samples.lone (Demo.fresh 0)))
         = [Call_generate_svg Samples.lone])
  /\ exists bytestring tail,
      encode_utf8 (X := unit) Samples.accented = inr bytestring
      /\ (List.length Samples.accented <= List.length bytestring
          <= 4 * List.length Samples.accented)%nat
      /\ calls (snd (render (R := Demo.runtime) Samples.accent
                       (Demo.fresh 0)))
         = Call_generate_svg Samples.accent
             :: Call_svg2png bytestring 400 480 :: tail.
Proof.
  split.
  - exact (@drawing_encoded_or_refused
             Demo.runtime Samples.lone (Demo.fresh 0) Samples.torn 1%nat
             eq_refl).
  - exact (@drawing_encoded_or_refused
             Demo.runtime Samples.accent (Demo.fresh 0) Samples.accented
             1%nat eq_refl).
Defined.

Lemma main_serves_parsed_port_witness :
  environ_port (X := unit) (Samples.environment "8080") = inr 8080%Z
  /\ exists text,
      py_str_int (X := unit) 8080 = inr text
      /\ py_int (X := unit) text = inr 8080%Z
      /\ ((exists x : unit,
              print (Host := Samples.console) starting_banner = inl x
              /\ main (H := Samples.console) (Samples.environment "8080")
                 = (inl (Foreign x), [Call_print starting_banner]))
          \/ (exists x : unit,
                 print (Host := Samples.console) (port_banner ++ text) = inl x
                 /\ main (H := Samples.console) (Samples.environment "8080")
                    = (inl (Foreign x),
                       [Call_print starting_banner;
                        Call_print (port_banner ++ text)]))
          \/ main (H := Samples.console) (Samples.environment "8080")
             = (inr tt,
                [Call_print starting_banner;
                 Call_print (port_banner ++ text);
                 Call_app_run (lit "0.0.0.0") 8080 false])).
Proof.
  split; [reflexivity|].
  exact (proj2 (proj2 (@main_serves_parsed_port
                         Samples.console (Samples.environment "8080"))
                  8080%Z eq_refl)).
Defined.
